(** * apple_to_spotify: a shallow embedding of [src/apple_to_spotify.py]

    The script reads a playlist exported as delimited text, resolves every
    row against the Spotify search endpoint through a ladder of queries,
    finds or creates the destination playlist, appends the resolved track
    identifiers in batches of 100 and writes the unmatched rows to
    [misses.csv].

    Conventions of the embedding.
    - A Python [str] is a [string]; its characters are the code points
      below 256.  Truthiness ([if s:]) is non-emptiness.
    - A dict with string keys is a [gmap string _].
    - Remote calls ([sp.search], [sp.current_user_playlists], ...) are
      answered by an oracle record [Spotify], each answer a function of
      the request; every call, every [print], every [time.sleep] and the
      write of the report are recorded, in program order, in a trace of
      [Event]s.  A failing remote call is outside the model.
    - The local environment is an oracle record [Env]: whether the input
      path exists, the environment variables, whether the client can be
      built, and what opening the input and iterating its [DictReader]
      give, exceptions included.
    - A computation yields a trace and an outcome: a value, an uncaught
      exception, a [sys.exit] code, or exhaustion of the fuel that bounds
      the [while True] loop of the playlist lookup. *)

From Stdlib Require Import ZArith Ascii.
From stdpp Require Import base tactics option list strings gmap.

Local Open Scope string_scope.
Local Open Scope nat_scope.
Local Open Scope list_scope.

(** ** Python values and helpers *)

Module Py.

(** Exceptions the modelled code can raise. *)
Inductive exn : Type :=
| AttributeError      (* method call on [None] *)
| IndexError          (* [xs[i]] out of range *)
| ValueError          (* [range] with a zero step *)
| OSError             (* [open] fails: IsADirectoryError, PermissionError, ... *)
| CsvError            (* [csv.Error], raised by a reader *)
| SpotifyOauthError.  (* [SpotifyOAuth(...)] lacks a credential *)

Global Instance exn_eq_dec : EqDecision exn.
Proof. solve_decision. Defined.

(** [bool(s)] for a [str]. *)
Definition truthy (s : string) : bool :=
  match s with
  | EmptyString => false
  | String _ _ => true
  end.

(** [bool(o)] for an [Optional[str]]: [None] and [''] are falsy. *)
Definition truthy_opt (o : option string) : bool :=
  match o with
  | None => false
  | Some s => truthy s
  end.

(** [bool(xs)] for a list. *)
Definition truthy_list {A} (xs : list A) : bool :=
  match xs with
  | [] => false
  | _ :: _ => true
  end.

(** [c.isspace()] on the code points below 256: TAB, LF, VT, FF, CR,
    FS, GS, RS, US, SPACE, NEL and NBSP. *)
Definition isspace (c : ascii) : bool :=
  let n := nat_of_ascii c in
  ((9 <=? n) && (n <=? 13)) || ((28 <=? n) && (n <=? 32))
  || (n =? 133) || (n =? 160).

(** [s.lstrip()] *)
Fixpoint lstrip (s : string) : string :=
  match s with
  | EmptyString => EmptyString
  | String c s' => if isspace c then lstrip s' else s
  end.

(** [s.rstrip()] *)
Fixpoint rstrip (s : string) : string :=
  match s with
  | EmptyString => EmptyString
  | String c s' =>
      match rstrip s' with
      | EmptyString => if isspace c then EmptyString else String c EmptyString
      | r => String c r
      end
  end.

(** [s.strip()] *)
Definition strip (s : string) : string := rstrip (lstrip s).

(** [range(start, stop, step)] for a positive [step], unrolled at most
    [fuel] times. *)
Fixpoint range_from (fuel start stop step : nat) : list nat :=
  match fuel with
  | 0 => []
  | S fuel' =>
      if start <? stop
      then start :: range_from fuel' (start + step) stop step
      else []
  end.

(** [range(0, stop, step)]; a zero step raises [ValueError].  Every
    iteration advances by at least one, so [stop] iterations suffice. *)
Definition range0 (stop step : nat) : exn + list nat :=
  match step with
  | 0 => inl ValueError
  | S _ => inr (range_from stop 0 stop step)
  end.

(** [xs[i:j]] for [0 <= i]: out-of-range bounds are clipped. *)
Definition slice {A} (xs : list A) (i j : nat) : list A :=
  take (j - i) (drop i xs).

(** [s or None] *)
Definition or_none (s : string) : option string :=
  if truthy s then Some s else None.

End Py.

(** ** The [csv] module, as far as the script uses it *)

Module Csv.

(** A cell of a [DictReader] row: a string read from the file, or
    [None], the [restval] that fills the columns a short line lacks. *)
Inductive cell : Type :=
| Str (s : string)
| NoneVal.

(** One row of [csv.DictReader]: [dict(zip(fieldnames, row))], then
    [d[key] = restval] for every [key] in [fieldnames[len(row):]].
    Later duplicates of a column name overwrite earlier ones.  The
    surplus fields of a long line go under the key [None], which no
    string key reaches, and are left out. *)
Definition dict_row (fieldnames row : list string) : gmap string cell :=
  let d := foldl (λ d kv, <[kv.1 := Str kv.2]> d) ∅ (zip fieldnames row) in
  foldl (λ d k, <[k := NoneVal]> d) d (drop (length row) fieldnames).

(** One pass over an iterator: what [next] yields, call after call, and
    what ends the pass, exhaustion ([None]) or an exception. *)
Record iteration (A : Type) : Type := {
  yields : list A;
  ending : option Py.exn;
}.
Arguments yields {A} _.
Arguments ending {A} _.

(** An iterator that is exhausted after [xs]. *)
Definition exhausted {A} (xs : list A) : iteration A :=
  {| yields := xs; ending := None |}.

(** The rows a [DictReader] yields over a [csv.reader]: the first line
    gives the field names, lines without any field are skipped.  An
    exception of the underlying reader (a [csv.Error], for instance on a
    field longer than the field size limit) passes through [next]. *)
Definition dict_reader (reader : iteration (list string))
  : iteration (gmap string cell) :=
  {| yields :=
       match yields reader with
       | [] => []
       | fieldnames :: rest =>
           dict_row fieldnames <$> filter (λ r, r ≠ []) rest
       end;
     ending := ending reader |}.

Definition dq : ascii := "034"%char.
Definition cr : ascii := "013"%char.
Definition lf : ascii := "010"%char.

(** Characters that force quoting under the [excel] dialect with
    [QUOTE_MINIMAL]: the delimiter, the quote character and the
    characters of the line terminator. *)
Definition special (c : ascii) : bool :=
  bool_decide (c = ","%char) || bool_decide (c = dq)
  || bool_decide (c = cr) || bool_decide (c = lf).

Fixpoint needs_quote (s : string) : bool :=
  match s with
  | EmptyString => false
  | String c s' => special c || needs_quote s'
  end.

(** Quote characters are doubled ([doublequote=True]). *)
Fixpoint escape (s : string) : string :=
  match s with
  | EmptyString => EmptyString
  | String c s' =>
      if bool_decide (c = dq) then String dq (String dq (escape s'))
      else String c (escape s')
  end.

(** A field as [csv.writer] writes it; [None] is written as the empty
    string. *)
Definition field (v : option string) : string :=
  match v with
  | None => ""
  | Some s =>
      if needs_quote s
      then String dq (escape s) +:+ String dq EmptyString
      else s
  end.

Definition join_fields (fs : list string) : string :=
  match fs with
  | [] => ""
  | f :: fs' => foldl (λ acc g, acc +:+ "," +:+ g) f fs'
  end.

(** [w.writerow(fields)] for a row of at least two fields: the fields
    joined by commas, ended by CR LF. *)
Definition writerow (fields : list (option string)) : string :=
  join_fields (field <$> fields) +:+ String cr (String lf EmptyString).

(** [w.writerows(rows)] *)
Definition writerows (rows : list (list (option string))) : string :=
  foldr (λ r acc, writerow r +:+ acc) "" rows.

End Csv.

Import Py Csv.

(** ** Export Parser: [read_apple_playlist_txt] *)

(** A parsed record, the tuple [(title, artist, album)]; [album] is
    [None] when the row has none. *)
Definition SourceTrack : Type := string * string * option string.

(** [row[k].strip()]: a method call on [None] raises. *)
Definition cell_strip (c : cell) : exn + string :=
  match c with
  | Str s => inr (strip s)
  | NoneVal => inl AttributeError
  end.

(** The nested function [pick(row, keys)]:
<<
    for k in keys:
        if k in row and row[k].strip():
            return row[k].strip()
    return ""
>> *)
Fixpoint pick (row : gmap string cell) (keys : list string) : exn + string :=
  match keys with
  | [] => inr ""
  | k :: keys' =>
      match row !! k with
      | None => pick row keys'
      | Some c =>
          match cell_strip c with
          | inl e => inl e
          | inr s => if truthy s then inr s else pick row keys'
          end
      end
  end.

Definition title_keys : list string := ["Name"; "Title"; "Track Name"].
Definition artist_keys : list string := ["Artist"; "Artist Name"].
Definition album_keys : list string := ["Album"; "Album Title"; "Album Name"].

(** The body of [for row in reader]: the three lookups, then the filter
    [if title and artist].  [inr None] is a row that is dropped. *)
Definition parse_row (row : gmap string cell) : exn + option SourceTrack :=
  match pick row title_keys with
  | inl e => inl e
  | inr title =>
      match pick row artist_keys with
      | inl e => inl e
      | inr artist =>
          match pick row album_keys with
          | inl e => inl e
          | inr album =>
              if truthy title && truthy artist
              then inr (Some (title, artist, or_none album))
              else inr None
          end
      end
  end.

(** The loop [for row in reader: ... rows.append(...)], with [rows] the
    list built so far: [reader] holds the rows that [next] still yields,
    [ending] what it does after them. *)
Fixpoint read_loop (reader : list (gmap string cell)) (ending : option exn)
    (rows : list SourceTrack) : exn + list SourceTrack :=
  match reader with
  | [] =>
      match ending with
      | None => inr rows
      | Some e => inl e
      end
  | row :: reader' =>
      match parse_row row with
      | inl e => inl e
      | inr None => read_loop reader' ending rows
      | inr (Some r) => read_loop reader' ending (rows ++ [r])
      end
  end.

(** The input file as the function meets it: the exception that escapes
    the head of the [with] block ([path.open], reading the sample,
    building the reader; the [csv.Error] of the sniffer is caught there),
    or the iteration of the [DictReader]. *)
Definition Input : Type := exn + iteration (gmap string cell).

(** [read_apple_playlist_txt(path)] *)
Definition read_apple_playlist_txt (input : Input) : exn + list SourceTrack :=
  match input with
  | inl e => inl e
  | inr reader => read_loop (yields reader) (ending reader) []
  end.

(** ** Effects: the trace of a run and its outcome *)

(** The lines the script prints, by their format string. *)
Inductive Msg : Type :=
| InputNotFound (path : string)          (* Input file not found: {infile} *)
| MissingUsername                        (* Missing SPOTIFY_USERNAME in .env *)
| NoTracksFound                          (* No tracks found in the exported file. ... *)
| Loaded (n : nat)                       (* Loaded {len(rows)} tracks from Apple export. *)
| CreatedPlaylist (name : string)        (* Created playlist: {name} *)
| AddingToExisting (name : string)       (* Adding to existing playlist: {name} *)
| Matched (i n : nat)                    (* Matched {i}/{len(rows)}... *)
| Added (n : nat) (name : string)        (* Added {len(track_ids)} tracks to '{name}'. *)
| CouldNotMatch (n : nat).               (* Could not match {len(misses)} tracks. See 'misses.csv'. *)

(** What a run does to the outside world, in program order. *)
Inductive Event : Type :=
| Search (q type : string) (limit : nat)          (* sp.search(q=, type=, limit=) *)
| Sleep                                           (* time.sleep(0.05) *)
| CurrentUser                                     (* sp.current_user() *)
| CurrentUserPlaylists (limit offset : nat)       (* sp.current_user_playlists(limit=, offset=) *)
| UserPlaylistCreate (user name : string) (public : bool) (description : string)
| PlaylistAddItems (playlist_id : string) (items : list string)
| Print (m : Msg)                                 (* print(...) *)
| PrintErr (m : Msg)                              (* print(..., file=sys.stderr) *)
| WriteFile (path content : string).              (* open(path, "w") and the writes to it *)

(** How a computation ends. *)
Inductive Out (A : Type) : Type :=
| Ret (a : A)            (* it returns [a] *)
| Raised (e : exn)       (* an exception propagates *)
| Exited (code : Z)      (* [sys.exit(code)] *)
| OutOfFuel.             (* the bound on the [while True] loop was reached *)
Arguments Ret {A} a.
Arguments Raised {A} e.
Arguments Exited {A} code.
Arguments OutOfFuel {A}.

Definition M (A : Type) : Type := list Event * Out A.

Definition ret {A} (a : A) : M A := ([], Ret a).

Definition bind {A B} (m : M A) (k : A → M B) : M B :=
  match m.2 with
  | Ret a => (m.1 ++ (k a).1, (k a).2)
  | Raised e => (m.1, Raised e)
  | Exited c => (m.1, Exited c)
  | OutOfFuel => (m.1, OutOfFuel)
  end.

Notation "'do' x <- m ; k" := (bind m (λ x, k))
  (at level 10, x name, m at level 100, k at level 200,
   format "'[v' 'do'  x  <-  m ; '/' k ']'").
Notation "m ;;; k" := (bind m (λ _, k))
  (at level 100, k at level 200, right associativity).

Definition emit (e : Event) : M unit := ([e], Ret tt).
Definition raise {A} (e : exn) : M A := ([], Raised e).
Definition sys_exit {A} (code : Z) : M A := ([], Exited code).
Definition out_of_fuel {A} : M A := ([], OutOfFuel).

(** A pure computation that may raise, run inside [M]. *)
Definition lift {A} (r : exn + A) : M A :=
  match r with
  | inl e => raise e
  | inr a => ret a
  end.

(** [xs[i]] *)
Definition getitem {A} (xs : list A) (i : nat) : M A :=
  match xs !! i with
  | Some x => ret x
  | None => raise IndexError
  end.

(** ** The remote service *)

(** A track object of a search response, read through [item["id"]]. *)
Record Track : Type := { track_id : string }.

(** The value under ["tracks"]; the key ["items"] may be missing. *)
Record Tracks : Type := { tracks_items : option (list Track) }.

(** A search response; the key ["tracks"] may be missing. *)
Record SearchResult : Type := { result_tracks : option Tracks }.

Record Owner : Type := { owner_id : string }.

(** A playlist object: [p["name"]], [p["owner"]["id"]], [p["id"]]. *)
Record Playlist : Type := {
  pl_name : string;
  pl_owner : Owner;
  pl_id : string;
}.

(** A page of the playlist listing: [pls["items"]], [pls["next"]]. *)
Record Page : Type := {
  page_items : list Playlist;
  page_next : option string;
}.

Record User : Type := { user_id : string }.

(** The answers of the service.  [sp.playlist_add_items] returns nothing
    the script reads. *)
Record Spotify : Type := {
  search : string → string → nat → SearchResult;
  current_user : User;
  current_user_playlists : nat → nat → Page;
  user_playlist_create : string → string → bool → string → Playlist;
}.

Definition sp_search (sp : Spotify) (q type : string) (limit : nat) : M SearchResult :=
  emit (Search q type limit);;; ret (search sp q type limit).

Definition sp_current_user (sp : Spotify) : M User :=
  emit CurrentUser;;; ret (current_user sp).

Definition sp_current_user_playlists (sp : Spotify) (limit offset : nat) : M Page :=
  emit (CurrentUserPlaylists limit offset);;; ret (current_user_playlists sp limit offset).

Definition sp_user_playlist_create (sp : Spotify) (user name : string)
    (public : bool) (description : string) : M Playlist :=
  emit (UserPlaylistCreate user name public description);;;
  ret (user_playlist_create sp user name public description).

Definition sp_playlist_add_items (playlist_id : string) (items : list string) : M unit :=
  emit (PlaylistAddItems playlist_id items).

(** ** Match Resolver: [best_spotify_match] *)

(** ["{s}"] inside an f-string: [s] between double quotes. *)
Definition quoted (s : string) : string :=
  String dq (s +:+ String dq EmptyString).

Definition query_album (title artist album : string) : string :=
  "track:" +:+ quoted title +:+ " artist:" +:+ quoted artist
  +:+ " album:" +:+ quoted album.

Definition query_fields (title artist : string) : string :=
  "track:" +:+ quoted title +:+ " artist:" +:+ quoted artist.

Definition query_text (title artist : string) : string :=
  title +:+ " " +:+ artist.

(** The list [queries] built at the head of [best_spotify_match]. *)
Definition queries (title artist : string) (album : option string) : list string :=
  (match album with
   | Some a => if truthy a then [query_album title artist a] else []
   | None => []
   end)
  ++ [query_fields title artist; query_text title artist; title].

(** [results.get("tracks", {}).get("items", [])] *)
Definition items_of (results : SearchResult) : list Track :=
  default [] (tracks_items (default {| tracks_items := None |} (result_tracks results))).

(** The loop [for q in queries] of [best_spotify_match]. *)
Fixpoint search_loop (sp : Spotify) (qs : list string) : M (option string) :=
  match qs with
  | [] => ret None
  | q :: qs' =>
      do results <- sp_search sp q "track" 5;
      let items := items_of results in
      if truthy_list items
      then do item <- getitem items 0; ret (Some (track_id item))
      else emit Sleep;;; search_loop sp qs'
  end.

Definition best_spotify_match (sp : Spotify) (title artist : string)
    (album : option string) : M (option string) :=
  search_loop sp (queries title artist album).

(** ** Batching: [chunked] *)

(** The generator [chunked(xs, n)], as the list of the slices it yields. *)
Definition chunked {A} (xs : list A) (n : nat) : exn + list (list A) :=
  match range0 (length xs) n with
  | inl e => inl e
  | inr starts => inr ((λ i, slice xs i (i + n)) <$> starts)
  end.

(** ** Playlist Synchronizer, Miss Reporter and [main] *)

(** The parsed command line: [--in], [--playlist], [--public]. *)
Record Args : Type := {
  infile : string;
  playlist_name : string;
  public : bool;
}.

(** The local environment of a run: [Path.exists], [os.getenv] after
    [load_dotenv()], the exception, if any, that building the client
    raises, and what opening and reading a file gives. *)
Record Env : Type := {
  path_exists : string → bool;
  getenv : string → option string;
  client_error : option exn;
  reader_rows : string → Input;
}.

(** [spotipy.Spotify(auth_manager=SpotifyOAuth(scope=..., open_browser=True))]:
    it sends nothing; the constructor of [SpotifyOAuth] raises
    [SpotifyOauthError] when it finds no client id, secret or redirect
    address. *)
Definition new_client (env : Env) : M unit :=
  match client_error env with
  | Some e => raise e
  | None => ret tt
  end.

(** The loop [for p in pls["items"]] with its [break]: [target] is the
    value of [target_playlist_id] on entry. *)
Fixpoint scan_items (name user : string) (items : list Playlist)
    (target : option string) : option string :=
  match items with
  | [] => target
  | p :: items' =>
      if bool_decide (pl_name p = name) && bool_decide (owner_id (pl_owner p) = user)
      then Some (pl_id p)
      else scan_items name user items' target
  end.

(** The loop [while True] over the pages of the listing. *)
Fixpoint find_playlist (fuel : nat) (sp : Spotify) (name user : string)
    (limit offset : nat) (target : option string) : M (option string) :=
  match fuel with
  | 0 => out_of_fuel
  | S fuel' =>
      do pls <- sp_current_user_playlists sp limit offset;
      let target' := scan_items name user (page_items pls) target in
      if truthy_opt target' || negb (truthy_opt (page_next pls))
      then ret target'
      else find_playlist fuel' sp name user limit (offset + limit) target'
  end.

Definition description : string := "Imported from Apple Music export".

(** [if not target_playlist_id: ... else: ...] *)
Definition create_or_reuse (sp : Spotify) (user : string) (args : Args)
    (target : option string) : M string :=
  match target with
  | Some id =>
      if truthy id
      then emit (Print (AddingToExisting (playlist_name args)));;; ret id
      else
        do created <- sp_user_playlist_create sp user (playlist_name args)
                        (public args) description;
        emit (Print (CreatedPlaylist (playlist_name args)));;;
        ret (pl_id created)
  | None =>
      do created <- sp_user_playlist_create sp user (playlist_name args)
                      (public args) description;
      emit (Print (CreatedPlaylist (playlist_name args)));;;
      ret (pl_id created)
  end.

(** The loop [for i, (title, artist, album) in enumerate(rows, 1)];
    [total] is [len(rows)], [i] the index of the head of [rows]. *)
Fixpoint resolve_loop (sp : Spotify) (total : nat) (rows : list SourceTrack) (i : nat)
    (track_ids : list string) (misses : list SourceTrack)
  : M (list string * list SourceTrack) :=
  match rows with
  | [] => ret (track_ids, misses)
  | (title, artist, album) :: rows' =>
      do tid <- best_spotify_match sp title artist album;
      let acc :=
        match tid with
        | Some id =>
            if truthy id then (track_ids ++ [id], misses)
            else (track_ids, misses ++ [(title, artist, album)])
        | None => (track_ids, misses ++ [(title, artist, album)])
        end in
      (if i mod 25 =? 0 then emit (Print (Matched i total)) else ret tt);;;
      resolve_loop sp total rows' (S i) acc.1 acc.2
  end.

(** The loop [for chunk in chunked(track_ids, 100)]. *)
Fixpoint add_loop (playlist_id : string) (chunks : list (list string)) : M unit :=
  match chunks with
  | [] => ret tt
  | chunk :: chunks' =>
      sp_playlist_add_items playlist_id chunk;;; add_loop playlist_id chunks'
  end.

Definition report_path : string := "misses.csv".

Definition report_header : list (option string) :=
  [Some "Title"; Some "Artist"; Some "Album"].

(** A miss as a row for [csv.writer]: the tuple [(title, artist, album)]. *)
Definition report_row (r : SourceTrack) : list (option string) :=
  [Some r.1.1; Some r.1.2; r.2].

(** What [w.writerow(header)] and [w.writerows(misses)] put in the file. *)
Definition report_content (misses : list SourceTrack) : string :=
  writerow report_header +:+ writerows (report_row <$> misses).

(** [if misses: ...] at the end of [main]. *)
Definition report_misses (misses : list SourceTrack) : M unit :=
  if truthy_list misses
  then
    emit (Print (CouldNotMatch (length misses)));;;
    emit (WriteFile report_path (report_content misses))
  else ret tt.

(** [main()], from the parsed arguments on. *)
Definition main (fuel : nat) (sp : Spotify) (env : Env) (args : Args) : M unit :=
  if negb (path_exists env (infile args))
  then emit (PrintErr (InputNotFound (infile args)));;; sys_exit 1%Z
  else
    let username := getenv env "SPOTIFY_USERNAME" in
    if negb (truthy_opt username)
    then emit (PrintErr MissingUsername);;; sys_exit 1%Z
    else
      new_client env;;;
      do rows <- lift (read_apple_playlist_txt (reader_rows env (infile args)));
      if negb (truthy_list rows)
      then emit (Print NoTracksFound);;; sys_exit 1%Z
      else
        emit (Print (Loaded (length rows)));;;
        do user <- sp_current_user sp;
        let current_user := user_id user in
        do target <- find_playlist fuel sp (playlist_name args) current_user 50 0 None;
        do target_playlist_id <- create_or_reuse sp current_user args target;
        do resolved <- resolve_loop sp (length rows) rows 1 [] [];
        let track_ids := resolved.1 in
        let misses := resolved.2 in
        do chunks <- lift (chunked track_ids 100);
        add_loop target_playlist_id chunks;;;
        emit (Print (Added (length track_ids) (playlist_name args)));;;
        report_misses misses.

(** The exit status of the process: 0 when [main] returns, the argument
    of [sys.exit], 1 when an exception goes uncaught (the interpreter
    prints the traceback and exits with status 1).  A run cut by the fuel
    bound has not ended. *)
Definition exit_code (o : Out unit) : option Z :=
  match o with
  | Ret _ => Some 0%Z
  | Exited c => Some c
  | Raised _ => Some 1%Z
  | OutOfFuel => None
  end.

(** ** Reading a trace *)

Definition is_remote (e : Event) : bool :=
  match e with
  | Search _ _ _ | CurrentUser | CurrentUserPlaylists _ _
  | UserPlaylistCreate _ _ _ _ | PlaylistAddItems _ _ => true
  | _ => false
  end.

(** The queries sent to [sp.search], in order. *)
Definition searches (t : list Event) : list string :=
  omap (λ e, match e with Search q _ _ => Some q | _ => None end) t.

(** The offsets of the listing pages requested, in order. *)
Definition page_requests (t : list Event) : list nat :=
  omap (λ e, match e with CurrentUserPlaylists _ o => Some o | _ => None end) t.

(** The playlists created, in order. *)
Definition creations (t : list Event) : list string :=
  omap (λ e, match e with UserPlaylistCreate _ n _ _ => Some n | _ => None end) t.

(** The batches appended, in order, with their playlist. *)
Definition appends (t : list Event) : list (string * list string) :=
  omap (λ e, match e with PlaylistAddItems p c => Some (p, c) | _ => None end) t.

(** The messages printed to standard output, in order. *)
Definition printed (t : list Event) : list Msg :=
  omap (λ e, match e with Print m => Some m | _ => None end) t.

(** The files written, in order. *)
Definition writes (t : list Event) : list (string * string) :=
  omap (λ e, match e with WriteFile p c => Some (p, c) | _ => None end) t.

(** The file system after a trace: a file opened with mode ["w"] gets
    exactly the content written, whatever it held. *)
Definition fs_after (t : list Event) (fs : gmap string string) : gmap string string :=
  foldl (λ fs pc, <[pc.1 := pc.2]> fs) fs (writes t).

(** ** Reference functions for the statements

    Pure readings of what the loops compute, against which the embedded
    code is proved. *)

(** The identifier the ladder [qs] ends on: the first item of the first
    non-empty answer. *)
Fixpoint first_hit (sp : Spotify) (qs : list string) : option string :=
  match qs with
  | [] => None
  | q :: qs' =>
      match items_of (search sp q "track" 5) with
      | item :: _ => Some (track_id item)
      | [] => first_hit sp qs'
      end
  end.

(** The trace of the rungs [qs] when each of them comes back empty. *)
Definition empty_rounds (qs : list string) : list Event :=
  qs ≫= λ q, [Search q "track" 5; Sleep].

(** The answer of the resolver for a record. *)
Definition resolve (sp : Spotify) (r : SourceTrack) : option string :=
  first_hit sp (queries r.1.1 r.1.2 r.2).

(** The test [if tid:] of the resolve loop on that answer. *)
Definition is_matched (sp : Spotify) (r : SourceTrack) : bool :=
  truthy_opt (resolve sp r).

(** The lists [track_ids] and [misses] the resolve loop builds. *)
Definition matched_ids (sp : Spotify) (rows : list SourceTrack) : list string :=
  omap (λ r, if is_matched sp r then resolve sp r else None) rows.

Definition missed (sp : Spotify) (rows : list SourceTrack) : list SourceTrack :=
  filter (λ r, is_matched sp r = false) rows.

(** A playlist that the lookup accepts. *)
Definition is_target (name user : string) (p : Playlist) : Prop :=
  pl_name p = name ∧ owner_id (pl_owner p) = user.

Global Instance is_target_dec name user p : Decision (is_target name user p).
Proof. unfold is_target. apply _. Defined.

(** The pages at offsets [0], [limit], ..., [(n-1) * limit]. *)
Definition pages (sp : Spotify) (limit n : nat) : list Page :=
  (λ k, current_user_playlists sp limit (k * limit)) <$> seq 0 n.

(** The listing they make up, in listing order. *)
Definition listing (sp : Spotify) (limit n : nat) : list Playlist :=
  pages sp limit n ≫= page_items.

(** The playlist the run ends up filling, given what the lookup found. *)
Definition target_id (sp : Spotify) (user : string) (args : Args)
    (target : option string) : string :=
  if truthy_opt target then default "" target
  else pl_id (user_playlist_create sp user (playlist_name args) (public args)
                description).

(** The events of the resolve loop: searches, sleeps and progress lines. *)
Definition resolve_event (e : Event) : bool :=
  match e with
  | Search _ _ _ | Sleep | Print (Matched _ _) => true
  | _ => false
  end.

(** The cells a lookup over [keys] may read are all strings. *)
Definition str_cells (row : gmap string cell) (keys : list string) : Prop :=
  ∀ k, k ∈ keys → row !! k ≠ Some NoneVal.

(** The value of the first key of [keys] that holds a non-blank string. *)
Fixpoint first_nonblank (row : gmap string cell) (keys : list string) : string :=
  match keys with
  | [] => ""
  | k :: keys' =>
      match row !! k with
      | Some (Str s) =>
          if truthy (strip s) then strip s else first_nonblank row keys'
      | _ => first_nonblank row keys'
      end
  end.

(** ** Sample data *)

Module Sample.

Definition header : list string := ["Name"; "Artist"; "Album"].

(** A line with fewer fields than the header. *)
Definition short_line : list string := ["Song A"; "Artist A"].
Definition short_row : gmap string cell := dict_row header short_line.

(** The file made of the two lines. *)
Definition short_file : Input :=
  inr (dict_reader (exhausted [header; short_line])).

End Sample.

Module Scenario.

(** Three lines under the header [Name, Artist, Album]: the second has a
    blank album, the third a blank title. *)
Definition lines : list (list string) :=
  [ ["Name"; "Artist"; "Album"];
    ["Song A"; "Artist A"; "Album A"];
    ["Song B"; "Artist B"; ""];
    [""; "Artist C"; "Album C"] ].

Definition rows : list SourceTrack :=
  [ ("Song A", "Artist A", Some "Album A"); ("Song B", "Artist B", None) ].

Definition env : Env := {|
  path_exists := λ _, true;
  getenv := λ k, if bool_decide (k = "SPOTIFY_USERNAME") then Some "me" else None;
  client_error := None;
  reader_rows := λ _, inr (dict_reader (exhausted lines));
|}.

Definition args : Args :=
  {| infile := "playlist.txt"; playlist_name := "X"; public := false |}.

Definition hit (id : string) : SearchResult :=
  {| result_tracks := Some {| tracks_items := Some [ {| track_id := id |} ] |} |}.

Definition no_hit : SearchResult :=
  {| result_tracks := Some {| tracks_items := Some [] |} |}.

Definition other : Playlist :=
  {| pl_name := "Y"; pl_owner := {| owner_id := "me" |}; pl_id := "pl-y" |}.

Definition wanted : Playlist :=
  {| pl_name := "X"; pl_owner := {| owner_id := "me" |}; pl_id := "pl-x" |}.

(** A service that finds "Song A" on the first rung and nothing else, and
    lists the playlist "X" of the current user on the second of two
    pages. *)
Definition sp : Spotify := {|
  search := λ q _ _,
    if bool_decide (q = query_album "Song A" "Artist A" "Album A")
    then hit "id-a" else no_hit;
  current_user := {| user_id := "me" |};
  current_user_playlists := λ _ offset,
    if offset =? 0
    then {| page_items := [other]; page_next := Some "page-2" |}
    else {| page_items := [wanted]; page_next := None |};
  user_playlist_create := λ user name _ _,
    {| pl_name := name; pl_owner := {| owner_id := user |}; pl_id := "pl-new" |};
|}.

(** A service that knows "Song A" by free text only. *)
Definition sp_text : Spotify := {|
  search := λ q _ _,
    if bool_decide (q = query_text "Song A" "Artist A")
    then hit "id-a" else {| result_tracks := None |};
  current_user := current_user sp;
  current_user_playlists := current_user_playlists sp;
  user_playlist_create := user_playlist_create sp;
|}.

End Scenario.

(** A header in which the three canonical column names are replaced by
    the names [title], [artist] and [album]. *)
Definition rename_columns (title artist album : string) (column : string) : string :=
  if bool_decide (column = "Name") then title
  else if bool_decide (column = "Artist") then artist
  else if bool_decide (column = "Album") then album
  else column.

(** The accepted names that are not the canonical one of their field. *)
Definition synonyms : list string :=
  ["Title"; "Track Name"; "Artist Name"; "Album Title"; "Album Name"].

(** ** Further reference functions *)

(** The record a row contributes to the output of the parser, if any. *)
Definition emitted (row : gmap string cell) : option SourceTrack :=
  match parse_row row with
  | inr (Some r) => Some r
  | _ => None
  end.

(** A string that [strip] leaves as it is. *)
Definition trimmed (s : string) : Prop := strip s = s.

(** The queries the resolver sends for a record. *)
Definition searched (sp : Spotify) (r : SourceTrack) : list string :=
  searches (best_spotify_match sp r.1.1 r.1.2 r.2).1.

Module Scenario2.

(** The service of [Scenario.sp] with a listing that never ends and never
    holds the wanted playlist. *)
Definition sp_endless : Spotify := {|
  search := search Scenario.sp;
  current_user := current_user Scenario.sp;
  current_user_playlists := λ _ _,
    {| page_items := [Scenario.other]; page_next := Some "more" |};
  user_playlist_create := user_playlist_create Scenario.sp;
|}.

(** The service of [Scenario.sp] before the playlist "X" exists. *)
Definition sp_fresh : Spotify := {|
  search := search Scenario.sp;
  current_user := current_user Scenario.sp;
  current_user_playlists := λ _ _,
    {| page_items := [Scenario.other]; page_next := None |};
  user_playlist_create := user_playlist_create Scenario.sp;
|}.

(** An export with a short line. *)
Definition env_short : Env := {|
  path_exists := λ _, true;
  getenv := getenv Scenario.env;
  client_error := None;
  reader_rows := λ _, Sample.short_file;
|}.

(** A path that exists and cannot be opened for reading: a directory. *)
Definition env_directory : Env := {|
  path_exists := λ _, true;
  getenv := getenv Scenario.env;
  client_error := None;
  reader_rows := λ _, inl OSError;
|}.

(** An export with a field beyond the field size limit of the reader on
    its second data line: the reader yields the first and raises. *)
Definition env_long_field : Env := {|
  path_exists := λ _, true;
  getenv := getenv Scenario.env;
  client_error := None;
  reader_rows := λ _,
    inr (dict_reader {| yields := [Sample.header; ["Song A"; "Artist A"; "Album A"]];
                        ending := Some CsvError |});
|}.

(** The export of [Scenario.env] without the credentials of the client. *)
Definition env_no_credentials : Env := {|
  path_exists := path_exists Scenario.env;
  getenv := getenv Scenario.env;
  client_error := Some SpotifyOauthError;
  reader_rows := reader_rows Scenario.env;
|}.

End Scenario2.

(** ** Reading a report back: [csv.reader] for the [excel] dialect *)

Module CsvReader.

(** The states of the parser of [csv.reader] that the [excel] dialect
    reaches (no escape character). *)
Inductive state : Type :=
| START_RECORD
| START_FIELD
| IN_FIELD
| IN_QUOTED_FIELD
| QUOTE_IN_QUOTED_FIELD
| EAT_CRNL.

Global Instance state_eq_dec : EqDecision state.
Proof. solve_decision. Defined.

(** The reader object between two characters: its state, the
    characters of the field it is in and the fields of the record it is
    in, both in order. *)
Record parser : Type := {
  p_state : state;
  p_field : string;
  p_fields : list string;
}.

(** [parse_reset] *)
Definition reset : parser :=
  {| p_state := START_RECORD; p_field := ""; p_fields := [] |}.

Definition goto (p : parser) (s : state) : parser :=
  {| p_state := s; p_field := p_field p; p_fields := p_fields p |}.

(** [parse_save_field], then the move to state [s]. *)
Definition save_field (p : parser) (s : state) : parser :=
  {| p_state := s; p_field := ""; p_fields := p_fields p ++ [p_field p] |}.

(** [parse_add_char], then the move to state [s]: a field that already
    holds [limit] characters ([csv.field_size_limit()], 131072 unless
    changed) takes no more. *)
Definition add_char (limit : nat) (p : parser) (c : ascii) (s : state)
  : exn + parser :=
  if limit <=? String.length (p_field p) then inl CsvError
  else inr {| p_state := s;
              p_field := p_field p +:+ String c "";
              p_fields := p_fields p |}.

Definition is_newline (c : ascii) : bool :=
  bool_decide (c = lf) || bool_decide (c = cr).

(** [parse_process_char] in the state [START_FIELD]; [None] is the
    end-of-line mark the reader processes after the characters of a
    line. *)
Definition start_field (limit : nat) (p : parser) (c : option ascii)
  : exn + parser :=
  match c with
  | None => inr (save_field p START_RECORD)
  | Some c =>
      if is_newline c then inr (save_field p EAT_CRNL)
      else if bool_decide (c = dq) then inr (goto p IN_QUOTED_FIELD)
      else if bool_decide (c = ","%char) then inr (save_field p START_FIELD)
      else add_char limit p c IN_FIELD
  end.

(** [parse_process_char] for the dialect [excel]: the delimiter is the
    comma, the quote character the double quote, [doublequote] is set,
    there is no escape character, and the dialect is not [strict]. *)
Definition process_char (limit : nat) (p : parser) (c : option ascii)
  : exn + parser :=
  match p_state p with
  | START_RECORD =>
      match c with
      | None => inr p
      | Some c' =>
          if is_newline c' then inr (goto p EAT_CRNL)
          else start_field limit p c
      end
  | START_FIELD => start_field limit p c
  | IN_FIELD =>
      match c with
      | None => inr (save_field p START_RECORD)
      | Some c =>
          if is_newline c then inr (save_field p EAT_CRNL)
          else if bool_decide (c = ","%char) then inr (save_field p START_FIELD)
          else add_char limit p c IN_FIELD
      end
  | IN_QUOTED_FIELD =>
      match c with
      | None => inr p
      | Some c =>
          if bool_decide (c = dq) then inr (goto p QUOTE_IN_QUOTED_FIELD)
          else add_char limit p c IN_QUOTED_FIELD
      end
  | QUOTE_IN_QUOTED_FIELD =>
      match c with
      | None => inr (save_field p START_RECORD)
      | Some c =>
          if bool_decide (c = dq) then add_char limit p c IN_QUOTED_FIELD
          else if bool_decide (c = ","%char) then inr (save_field p START_FIELD)
          else if is_newline c then inr (save_field p EAT_CRNL)
          else add_char limit p c IN_FIELD
      end
  | EAT_CRNL =>
      match c with
      | None => inr (goto p START_RECORD)
      | Some c => if is_newline c then inr p else inl CsvError
      end
  end.

(** The characters of a line, one after the other. *)
Fixpoint feed (limit : nat) (p : parser) (line : string) : exn + parser :=
  match line with
  | EmptyString => inr p
  | String c line' =>
      match process_char limit p (Some c) with
      | inl e => inl e
      | inr p' => feed limit p' line'
      end
  end.

Definition stop {A} : iteration A := {| yields := []; ending := None |}.
Definition failed {A} (e : exn) : iteration A :=
  {| yields := []; ending := Some e |}.
Definition yield {A} (x : A) (rest : iteration A) : iteration A :=
  {| yields := x :: yields rest; ending := ending rest |}.

(** The end of the input in [Reader_iternext]: the record under way is
    completed and yielded if a field is open or a quoted field is not
    closed; then the iteration stops. *)
Definition end_of_input (p : parser) : iteration (list string) :=
  if bool_decide (p_field p ≠ "") || bool_decide (p_state p = IN_QUOTED_FIELD)
  then yield (p_fields (save_field p START_RECORD)) stop
  else stop.

(** The end of a line in [Reader_iternext]: the parser processes the
    end-of-line mark; the record is complete, and yielded, when the parser
    is back in [START_RECORD], and [next] goes on from the parser it is
    given. *)
Definition end_of_line (limit : nat) (p : parser)
    (next : parser → iteration (list string)) : iteration (list string) :=
  match process_char limit p None with
  | inl e => failed e
  | inr p' =>
      if bool_decide (p_state p' = START_RECORD)
      then yield (p_fields p') (next reset)
      else next p'
  end.

(** The iteration of a reader over [lines], from the parser [p]. *)
Fixpoint read_lines (limit : nat) (lines : list string) (p : parser)
  : iteration (list string) :=
  match lines with
  | [] => end_of_input p
  | line :: lines' =>
      match feed limit p line with
      | inl e => failed e
      | inr p' => end_of_line limit p' (read_lines limit lines')
      end
  end.

(** Whether a line ends after the character [c], given the text [rest]
    that follows it: after LF, and after a CR that no LF follows. *)
Definition line_end (c : ascii) (rest : string) : bool :=
  bool_decide (c = lf)
  || (bool_decide (c = cr)
      && negb (match rest with
               | String c' _ => bool_decide (c' = lf)
               | EmptyString => false
               end)).

(** The lines of a text file opened with [newline=""], line ends kept;
    [line] holds the characters of the line under way. *)
Fixpoint splitlines (text : string) (line : string) : list string :=
  match text with
  | EmptyString => if bool_decide (line = "") then [] else [line]
  | String c text' =>
      if line_end c text'
      then (line +:+ String c "") :: splitlines text' ""
      else splitlines text' (line +:+ String c "")
  end.

(** [csv.reader(f)] over the lines of a file of content [text]. *)
Definition reader (limit : nat) (text : string) : iteration (list string) :=
  read_lines limit (splitlines text "") reset.

(** The same iteration read off the text, character by character:
    the end of a line is processed where a line ends; [mid] tells whether
    a line is under way. *)
Fixpoint scan (limit : nat) (text : string) (p : parser) (mid : bool)
  : iteration (list string) :=
  match text with
  | EmptyString =>
      if mid then end_of_line limit p end_of_input else end_of_input p
  | String c text' =>
      match process_char limit p (Some c) with
      | inl e => failed e
      | inr p' =>
          if line_end c text'
          then end_of_line limit p' (λ p'', scan limit text' p'' false)
          else scan limit text' p' true
      end
  end.

(** The default of [csv.field_size_limit()], 131072. *)
Definition field_size_limit : nat := 2 ^ 17.

(** A parser that has read a whole field [s] after the fields [fs] of a
    record, from the state [st] in which the field began. *)
Definition field_done (st : state) (s : string) (fs : list string)
    (q : parser) : Prop :=
  p_field q = s ∧ p_fields q = fs
  ∧ (p_state q = IN_FIELD ∨ p_state q = QUOTE_IN_QUOTED_FIELD
     ∨ (p_state q = st ∧ s = "")).

End CsvReader.

(** The title, the artist and the album of a miss, as the strings of its
    row in the report. *)
Definition miss_fields (r : SourceTrack) : list string :=
  [r.1.1; r.1.2; default "" r.2].
(** * Properties *)

(** ** The monad *)

Lemma bind_ret {A B} (t : list Event) (a : A) (k : A → M B) :
  bind (t, Ret a) k = (t ++ (k a).1, (k a).2).
Proof. reflexivity. Qed.

Lemma bind_emit {B} (e : Event) (k : unit → M B) :
  bind (emit e) k = (e :: (k tt).1, (k tt).2).
Proof. reflexivity. Qed.

Lemma bind_lift_inr {A B} (a : A) (k : A → M B) :
  bind (lift (inr a)) k = k a.
Proof. unfold bind; simpl. by destruct (k a). Qed.

Lemma bind_new_client {B} (env : Env) (k : unit → M B) :
  client_error env = None → bind (new_client env) k = k tt.
Proof. unfold new_client. intros ->. unfold bind; simpl. by destruct (k tt). Qed.

Lemma string_app_assoc (s1 s2 s3 : string) :
  (s1 +:+ s2) +:+ s3 = s1 +:+ s2 +:+ s3.
Proof.
  induction s1 as [|c s1 IH]; [done|].
  change (String c ((s1 +:+ s2) +:+ s3) = String c (s1 +:+ s2 +:+ s3)).
  by rewrite IH.
Qed.

Lemma string_length_app (s1 s2 : string) :
  String.length (s1 +:+ s2) = String.length s1 + String.length s2.
Proof.
  induction s1 as [|c s1 IH]; [done|].
  change (S (String.length (s1 +:+ s2)) = S (String.length s1 + String.length s2)).
  by rewrite IH.
Qed.

(** ** Match Resolver *)

(** One round of the ladder. *)
Lemma search_loop_cons sp q qs :
  search_loop sp (q :: qs) =
    match items_of (search sp q "track" 5) with
    | item :: _ => ([Search q "track" 5], Ret (Some (track_id item)))
    | [] => (Search q "track" 5 :: Sleep :: (search_loop sp qs).1,
             (search_loop sp qs).2)
    end.
Proof.
  simpl. unfold sp_search. rewrite bind_emit. simpl. rewrite bind_ret. simpl.
  destruct (items_of (search sp q "track" 5)) as [|item items]; simpl.
  - reflexivity.
  - reflexivity.
Qed.

(** The ladder returns, and returns what [first_hit] says. *)
Lemma search_loop_value sp qs : (search_loop sp qs).2 = Ret (first_hit sp qs).
Proof.
  induction qs as [|q qs IH]; [done|].
  rewrite search_loop_cons. simpl.
  by destruct (items_of (search sp q "track" 5)).
Qed.

(** The two ways a ladder ends: on its [k]-th query, the first with a
    non-empty answer, or after every query came back empty. *)
Lemma search_loop_run sp qs :
  (∃ k q item items,
      qs !! k = Some q
      ∧ items_of (search sp q "track" 5) = item :: items
      ∧ (∀ q', q' ∈ take k qs → items_of (search sp q' "track" 5) = [])
      ∧ search_loop sp qs
        = (empty_rounds (take k qs) ++ [Search q "track" 5],
           Ret (Some (track_id item))))
  ∨ ((∀ q, q ∈ qs → items_of (search sp q "track" 5) = [])
     ∧ search_loop sp qs = (empty_rounds qs, Ret None)).
Proof.
  induction qs as [|q qs IH].
  - right. split; [by intros q ?%elem_of_nil|done].
  - rewrite search_loop_cons.
    destruct (items_of (search sp q "track" 5)) as [|item items] eqn:Hq.
    + destruct IH as [(k & q' & it & its & Hk & Hit & Hbefore & Hrun)
                     |[Hall Hrun]].
      * left. exists (S k), q', it, its. rewrite Hrun. simpl.
        split_and!; try done.
        intros q'' [->|?]%elem_of_cons; auto.
      * right. rewrite Hrun. split; [|done].
        intros q' [->|?]%elem_of_cons; auto.
    + left. exists 0, q, item, items.
      split_and!; try done. by intros ? ?%elem_of_nil.
Qed.

Lemma searches_app t1 t2 : searches (t1 ++ t2) = searches t1 ++ searches t2.
Proof. apply omap_app. Qed.

Lemma empty_rounds_cons q qs :
  empty_rounds (q :: qs) = Search q "track" 5 :: Sleep :: empty_rounds qs.
Proof. reflexivity. Qed.

Lemma searches_empty_rounds qs : searches (empty_rounds qs) = qs.
Proof.
  induction qs as [|q qs IH]; [done|].
  rewrite empty_rounds_cons. simpl. by rewrite IH.
Qed.

Lemma first_hit_None sp qs :
  first_hit sp qs = None ↔ ∀ q, q ∈ qs → items_of (search sp q "track" 5) = [].
Proof.
  induction qs as [|q qs IH]; simpl.
  - split; [by intros _ q ?%elem_of_nil|done].
  - destruct (items_of (search sp q "track" 5)) as [|item items] eqn:Hq.
    + rewrite IH. split.
      * intros H q' [->|?]%elem_of_cons; auto.
      * intros H q' ?. apply H. by right.
    + split; [done|]. intros H. specialize (H q (list_elem_of_here _ _)).
      congruence.
Qed.

Lemma queries_length title artist album :
  length (queries title artist album) = if truthy_opt album then 4 else 3.
Proof. unfold queries. destruct album as [[|c a]|]; reflexivity. Qed.

(** The run of the resolver on a record, in terms of the list [queries]
    and of [items_of]. *)
Lemma ladder_run (sp : Spotify) (title artist : string) (album : option string) :
  let qs := queries title artist album in
  let run := best_spotify_match sp title artist album in
  length (searches run.1) ≤ length qs
  ∧ ((∃ k q item items,
         qs !! k = Some q
         ∧ items_of (search sp q "track" 5) = item :: items
         ∧ (∀ q', q' ∈ take k qs → items_of (search sp q' "track" 5) = [])
         ∧ run.1 = empty_rounds (take k qs) ++ [Search q "track" 5]
         ∧ searches run.1 = take (S k) qs
         ∧ run.2 = Ret (Some (track_id item)))
     ∨ ((∀ q, q ∈ qs → items_of (search sp q "track" 5) = [])
        ∧ run.1 = empty_rounds qs
        ∧ searches run.1 = qs
        ∧ run.2 = Ret None))
  ∧ (run.2 = Ret None
     ↔ ∀ q, q ∈ qs → items_of (search sp q "track" 5) = []).
Proof.
  intros qs run.
  assert (Hcases := search_loop_run sp qs).
  assert (Hsearched : searches run.1 `prefix_of` qs).
  { unfold run, best_spotify_match. fold qs.
    destruct Hcases as [(k & q & item & items & Hk & _ & _ & ->)|[_ ->]]; simpl.
    - rewrite searches_app, searches_empty_rounds. simpl.
      rewrite <- (take_drop_middle qs k q Hk) at 2.
      by apply prefix_app, prefix_cons, prefix_nil.
    - by rewrite searches_empty_rounds. }
  apply prefix_length in Hsearched.
  split_and!.
  - done.
  - unfold run, best_spotify_match. fold qs.
    destruct Hcases as [(k & q & item & items & Hk & Hq & Hbefore & ->)|[Hall ->]].
    + left. exists k, q, item, items. split_and!; try done. simpl.
      rewrite searches_app, searches_empty_rounds. simpl.
      by rewrite (take_S_r _ _ _ Hk).
    + right. split_and!; try done. simpl. apply searches_empty_rounds.
  - unfold run, best_spotify_match. fold qs.
    rewrite search_loop_value, <- first_hit_None.
    split; [by intros [= ->]|by intros ->].
Qed.

(** [results.get("tracks", {}).get("items", [])], key by key. *)
Lemma items_of_keys (r : SearchResult) :
  items_of r
  = match result_tracks r with
    | Some t =>
        match tracks_items t with
        | Some items => items
        | None => []
        end
    | None => []
    end.
Proof. unfold items_of. by destruct (result_tracks r) as [[[items|]]|]. Qed.

(** C1.  For a record [(title, artist, album)] the resolver walks a fixed
    ladder of queries: [track:"T" artist:"A" album:"L"] (only when the
    album is present, that is a non-empty string), then
    [track:"T" artist:"A"], then the free text [T A], then the free text
    [T].  Each query is sent for type "track" with limit 5; the ranked
    list of an answer is what it holds under "tracks", "items", empty when
    a key is missing.  The resolver sends at most 4 searches, at most 3
    when the album is absent.  Either some rung [k] is the first whose
    ranked list is not empty, and then exactly the rungs [0..k] were
    searched, in order, with a sleep after each empty one, and the
    identifier of the first item of that list is returned; or every rung
    came back empty, all of them were searched, and the result is [None].
    The result is [None] exactly when every rung yields no item. *)
Theorem best_spotify_match_ladder (sp : Spotify) (title artist : string)
    (album : option string) :
  let quote := λ s, String "034"%char (s +:+ String "034"%char "") in
  let fields := "track:" +:+ quote title +:+ " artist:" +:+ quote artist in
  let qs :=
    match album with
    | Some (String c l) => [fields +:+ " album:" +:+ quote (String c l)]
    | _ => []
    end
    ++ [fields; title +:+ " " +:+ artist; title] in
  let ranked := λ q,
    match result_tracks (search sp q "track" 5) with
    | Some t =>
        match tracks_items t with
        | Some items => items
        | None => []
        end
    | None => []
    end in
  let round := λ q, [Search q "track" 5; Sleep] in
  let run := best_spotify_match sp title artist album in
  queries title artist album = qs
  ∧ length (searches run.1) ≤ 4
  ∧ (album = None ∨ album = Some "" → length (searches run.1) ≤ 3)
  ∧ ((∃ k q item items,
         qs !! k = Some q
         ∧ ranked q = item :: items
         ∧ (∀ q', q' ∈ take k qs → ranked q' = [])
         ∧ run.1 = (take k qs ≫= round) ++ [Search q "track" 5]
         ∧ searches run.1 = take (S k) qs
         ∧ run.2 = Ret (Some (track_id item)))
     ∨ ((∀ q, q ∈ qs → ranked q = [])
        ∧ run.1 = qs ≫= round
        ∧ searches run.1 = qs
        ∧ run.2 = Ret None))
  ∧ (run.2 = Ret None ↔ ∀ q, q ∈ qs → ranked q = []).
Proof.
  intros quote fields qs ranked round run.
  assert (queries title artist album = qs) as Hqs.
  { unfold queries, qs, query_album, query_fields, query_text, fields.
    destruct album as [[|c l]|]; cbn [truthy app]; [done| |done].
    f_equal. unfold quoted, quote, dq. by rewrite !string_app_assoc. }
  assert (∀ q, ranked q = items_of (search sp q "track" 5)) as Hranked.
  { intros q. by rewrite items_of_keys. }
  destruct (ladder_run sp title artist album) as (Hlen & Hcases & Hnone).
  fold run in Hlen, Hcases, Hnone. rewrite Hqs in Hlen, Hcases, Hnone.
  assert (length qs = if truthy_opt album then 4 else 3) as Hcount.
  { rewrite <- Hqs. apply queries_length. }
  split_and!.
  - done.
  - assert (length qs ≤ 4) by (rewrite Hcount; destruct (truthy_opt album); lia).
    lia.
  - rewrite Hcount in Hlen. by intros [->| ->].
  - destruct Hcases as [(k & q & item & items & Hk & Hq & Hbefore & Hrun & Hsent & Hret)
                       |(Hall & Hrun & Hsent & Hret)].
    + left. exists k, q, item, items. rewrite Hranked.
      split_and!; [done|done| |exact Hrun|done|done].
      intros q' Hq'. rewrite Hranked. by apply Hbefore.
    + right. split_and!; [|exact Hrun|done|done].
      intros q Hq. rewrite Hranked. by apply Hall.
  - rewrite Hnone. split; intros H q Hq; [rewrite Hranked|rewrite <- Hranked]; auto.
Qed.

Lemma items_of_missing_key (r : SearchResult) :
  result_tracks r = None
  ∨ (∃ t, result_tracks r = Some t ∧ tracks_items t = None) →
  items_of r = [].
Proof.
  unfold items_of. intros [->|(t & -> & Ht)]; simpl; [done|]. by rewrite Ht.
Qed.

(** C9.  A search response without the key "tracks", or whose "tracks"
    value has no key "items", counts as an empty result: the resolver
    sleeps and goes on with the rest of the ladder, whatever rung it is
    on.  The access [items[0]] succeeds whenever the guard [if items:]
    holds, and the resolver never ends in an exception: it always returns
    an identifier or [None]. *)
Theorem best_spotify_match_missing_keys (sp : Spotify) :
  (∀ q qs,
      result_tracks (search sp q "track" 5) = None
      ∨ (∃ t, result_tracks (search sp q "track" 5) = Some t
              ∧ tracks_items t = None) →
      items_of (search sp q "track" 5) = []
      ∧ search_loop sp (q :: qs)
        = (Search q "track" 5 :: Sleep :: (search_loop sp qs).1,
           (search_loop sp qs).2))
  ∧ (∀ items : list Track,
        truthy_list items = true → ∃ item, getitem items 0 = ret item)
  ∧ (∀ title artist album,
        ∃ tid, (best_spotify_match sp title artist album).2 = Ret tid).
Proof.
  split_and!.
  - intros q qs Hmissing. apply items_of_missing_key in Hmissing.
    split; [done|]. by rewrite search_loop_cons, Hmissing.
  - intros [|item items] Hguard; [done|]. by exists item.
  - intros title artist album. eexists. apply search_loop_value.
Qed.

(** ** Batching *)

Section Chunks.
Context {A : Type}.
Variable n : nat.
Hypothesis n_pos : 0 < n.

(** The [j]-th start index is [start + j * n], below [stop]. *)
Lemma range_from_lookup fuel start stop j v :
  range_from fuel start stop n !! j = Some v → v = start + j * n ∧ v < stop.
Proof.
  revert start j. induction fuel as [|fuel IH]; intros start j; simpl; [done|].
  destruct (Nat.ltb_spec start stop) as [Hlt|Hge]; [|done].
  destruct j as [|j]; simpl.
  - intros [= <-]. lia.
  - intros [-> ?]%IH. lia.
Qed.

(** With enough fuel the range stops only at [stop]. *)
Lemma range_from_length fuel start stop :
  stop - start ≤ fuel →
  length (range_from fuel start stop n) = (stop - start + (n - 1)) / n.
Proof.
  revert start. induction fuel as [|fuel IH]; intros start Hfuel; simpl.
  - replace (stop - start) with 0 by lia. simpl.
    symmetry. apply Nat.div_small. lia.
  - destruct (Nat.ltb_spec start stop) as [Hlt|Hge]; simpl.
    + rewrite IH by lia.
      destruct (le_lt_dec n (stop - start)) as [Hbig|Hsmall].
      * replace (stop - start + (n - 1))
          with (1 * n + (stop - (start + n) + (n - 1))) by lia.
        rewrite Nat.div_add_l by lia. lia.
      * replace (stop - (start + n)) with 0 by lia.
        rewrite (Nat.div_small (0 + (n - 1))) by lia.
        apply (Nat.div_unique _ _ 1 (stop - start - 1)); lia.
    + replace (stop - start) with 0 by lia. simpl.
      symmetry. apply Nat.div_small. lia.
Qed.

(** The slices taken from [start] on make up the rest of the list. *)
Lemma slices_concat (xs : list A) fuel start :
  length xs - start ≤ fuel →
  concat ((λ i, slice xs i (i + n)) <$> range_from fuel start (length xs) n)
  = drop start xs.
Proof.
  revert start. induction fuel as [|fuel IH]; intros start Hfuel; simpl.
  - symmetry. apply drop_ge. lia.
  - destruct (Nat.ltb_spec start (length xs)) as [Hlt|Hge]; simpl.
    + rewrite IH by lia. unfold slice.
      replace (start + n - start) with n by lia.
      rewrite <- drop_drop. apply take_drop.
    + symmetry. apply drop_ge. lia.
Qed.

(** The size of the last batch. *)
Lemma last_batch_size (L j : nat) :
  0 < L → S j = (L + (n - 1)) / n →
  n `min` (L - j * n) = if L mod n =? 0 then n else L mod n.
Proof.
  intros HL Hj.
  assert (Hdiv := Nat.div_mod_eq L n).
  assert (Hmod := Nat.mod_upper_bound L n ltac:(lia)).
  destruct (Nat.eqb_spec (L mod n) 0) as [Hz|Hnz].
  - assert (L / n = S j) as Hq.
    { rewrite Hj. apply (Nat.div_unique _ _ _ (n - 1)); lia. }
    rewrite Hq, Hz in Hdiv. nia.
  - assert (L / n = j) as Hq.
    { assert (S (L / n) = S j) as [=]; [|done]. rewrite Hj.
      apply (Nat.div_unique _ _ _ (L mod n - 1)); [lia|].
      rewrite Nat.mul_succ_r. lia. }
    rewrite Hq in Hdiv. nia.
Qed.
End Chunks.

Lemma add_loop_run (playlist_id : string) (chunks : list (list string)) :
  add_loop playlist_id chunks = (PlaylistAddItems playlist_id <$> chunks, Ret tt).
Proof.
  induction chunks as [|chunk chunks IH]; [done|].
  simpl. unfold sp_playlist_add_items. rewrite bind_emit. by rewrite IH.
Qed.

Lemma chunked_inr {A} (xs : list A) (n : nat) :
  0 < n →
  chunked xs n
  = inr ((λ i, slice xs i (i + n)) <$> range_from (length xs) 0 (length xs) n).
Proof. intros Hn. unfold chunked, range0. by destruct n; [lia|]. Qed.

(** The batches of 100 of a list: their number, their sizes, their
    concatenation. *)
Lemma batches_of_100 (track_ids : list string) :
  let L := length track_ids in
  ∃ chunks : list (list string),
    chunked track_ids 100 = inr chunks
    ∧ length chunks = (L + 99) / 100
    ∧ L ≤ 100 * length chunks < L + 100
    ∧ concat chunks = track_ids
    ∧ (∀ j chunk,
          chunks !! j = Some chunk →
          length chunk
          = if decide (S j < length chunks) then 100
            else if L mod 100 =? 0 then 100 else L mod 100)
    ∧ (L = 0 → chunks = []).
Proof.
  intros L. set (starts := range_from L 0 L 100).
  exists ((λ i, slice track_ids i (i + 100)) <$> starts).
  split; [by apply chunked_inr; lia|].
  assert (length starts = (L + 99) / 100) as Hcount.
  { unfold starts. rewrite (range_from_length 100) by lia.
    by rewrite Nat.sub_0_r. }
  split_and!.
  - by rewrite length_fmap.
  - rewrite length_fmap, Hcount.
    assert (Hdiv := Nat.div_mod_eq (L + 99) 100).
    assert (Hmod := Nat.mod_upper_bound (L + 99) 100 ltac:(lia)). lia.
  - rewrite length_fmap, Hcount.
    assert (Hdiv := Nat.div_mod_eq (L + 99) 100).
    assert (Hmod := Nat.mod_upper_bound (L + 99) 100 ltac:(lia)). lia.
  - unfold starts, L. rewrite (slices_concat 100) by lia. apply drop_0.
  - intros j chunk. rewrite list_lookup_fmap, length_fmap.
    destruct (starts !! j) as [i|] eqn:Hj; [|done]. intros [= <-].
    destruct (range_from_lookup 100 ltac:(lia) _ _ _ _ _ Hj) as [-> Hlt].
    unfold slice. rewrite length_take, length_drop. fold L.
    replace (0 + j * 100 + 100 - (0 + j * 100)) with 100 by lia.
    case_decide as Hnext.
    + destruct (lookup_lt_is_Some_2 starts (S j) Hnext) as [i' Hi'].
      destruct (range_from_lookup 100 ltac:(lia) _ _ _ _ _ Hi') as [-> Hlt'].
      lia.
    + apply lookup_lt_Some in Hj.
      replace (0 + j * 100) with (j * 100) by lia.
      apply (last_batch_size 100); [lia|lia|].
      change (100 - 1) with 99. lia.
  - intros HL. unfold starts. by rewrite HL.
Qed.

(** ** Export Parser *)

(** On cells that are strings a lookup returns the first non-blank
    candidate, trimmed, or the empty string. *)
Lemma pick_str_cells row keys :
  str_cells row keys → pick row keys = inr (first_nonblank row keys).
Proof.
  induction keys as [|k keys IH]; intros Hstr; [done|]. simpl.
  assert (str_cells row keys) as Hrest.
  { intros k' ?. apply Hstr. by right. }
  destruct (row !! k) as [[s|]|] eqn:Hk; simpl.
  - destruct (truthy (strip s)); auto.
  - by destruct (Hstr k (list_elem_of_here _ _)).
  - auto.
Qed.

(** A lookup raises exactly when it reaches a [None] cell before any
    non-blank string. *)
Lemma pick_raises row keys e :
  pick row keys = inl e →
  e = AttributeError ∧ ∃ k, k ∈ keys ∧ row !! k = Some NoneVal.
Proof.
  induction keys as [|k keys IH]; [done|]. simpl.
  destruct (row !! k) as [[s|]|] eqn:Hk; simpl.
  - destruct (truthy (strip s)); [done|].
    intros [-> (k' & ? & ?)]%IH. split; [done|]. exists k'. split; [by right|done].
  - intros [= <-]. split; [done|]. exists k. split; [by left|done].
  - intros [-> (k' & ? & ?)]%IH. split; [done|]. exists k'. split; [by right|done].
Qed.

(** A row is kept or dropped by its title and artist alone, once the
    three lookups return. *)
Lemma parse_row_str_cells row :
  str_cells row title_keys → str_cells row artist_keys → str_cells row album_keys →
  parse_row row
  = inr (if truthy (first_nonblank row title_keys)
            && truthy (first_nonblank row artist_keys)
         then Some (first_nonblank row title_keys,
                    first_nonblank row artist_keys,
                    or_none (first_nonblank row album_keys))
         else None).
Proof.
  intros Ht Ha Hl. unfold parse_row.
  rewrite !pick_str_cells by done.
  by destruct (truthy _ && truthy _).
Qed.

(** Whatever the cells hold, an emitted record has a non-empty title and
    artist, and never an empty album. *)
Lemma parse_row_emitted row title artist album :
  parse_row row = inr (Some (title, artist, album)) →
  pick row title_keys = inr title ∧ pick row artist_keys = inr artist
  ∧ title ≠ "" ∧ artist ≠ "" ∧ album ≠ Some "".
Proof.
  unfold parse_row.
  destruct (pick row title_keys) as [|t]; [done|].
  destruct (pick row artist_keys) as [|a]; [done|].
  destruct (pick row album_keys) as [|l]; [done|].
  destruct t as [|c t], a as [|c' a]; simpl; try done.
  intros [= <- <- <-]. split_and!; try done. by destruct l.
Qed.

Lemma read_loop_app reader ending rows :
  read_loop reader ending rows
  = match read_loop reader ending [] with
    | inl e => inl e
    | inr rows' => inr (rows ++ rows')
    end.
Proof.
  revert rows. induction reader as [|row reader IH]; intros rows; simpl.
  - destruct ending; [done|]. by rewrite app_nil_r.
  - destruct (parse_row row) as [e|[r|]]; [done| |apply IH].
    rewrite (IH (rows ++ [r])), (IH [r]).
    destruct (read_loop reader ending []); [done|]. by rewrite <- app_assoc.
Qed.

(** The reader's own exception comes last: it is raised only after every
    row it yielded went through the loop. *)
Lemma read_loop_ending reader ending rows :
  read_loop reader ending rows
  = match read_loop reader None rows with
    | inl e => inl e
    | inr rows' =>
        match ending with
        | None => inr rows'
        | Some e => inl e
        end
    end.
Proof.
  revert rows. induction reader as [|row reader IH]; intros rows; simpl.
  - by destruct ending.
  - destruct (parse_row row) as [e|[r|]]; [done|apply IH..].
Qed.

(** C3.  The header [Name, Artist, Album] followed by the line
    [Song A, Artist A] gives a row whose "Album" cell is [None].  Its
    title and artist resolve to non-empty strings, yet the row is not
    emitted: the album lookup raises [AttributeError], and so does
    [read_apple_playlist_txt] on the file. *)
Theorem parse_row_short_line_raises :
  Sample.short_row !! "Album" = Some NoneVal
  ∧ pick Sample.short_row title_keys = inr "Song A"
  ∧ pick Sample.short_row artist_keys = inr "Artist A"
  ∧ parse_row Sample.short_row = inl AttributeError
  ∧ read_apple_playlist_txt
      (inr (dict_reader (exhausted [Sample.header; Sample.short_line])))
    = inl AttributeError.
Proof. split_and!; by vm_compute. Qed.

(** C5.  On the same row no candidate key of the album lookup holds a
    non-blank value ("Album" holds [None], "Album Title" and "Album Name"
    are absent), yet the lookup does not yield the empty string: it
    raises [AttributeError]. *)
Theorem pick_album_short_line_raises :
  Sample.short_row !! "Album" = Some NoneVal
  ∧ Sample.short_row !! "Album Title" = None
  ∧ Sample.short_row !! "Album Name" = None
  ∧ pick Sample.short_row album_keys = inl AttributeError.
Proof. split_and!; by vm_compute. Qed.

(** ** The phases of [main] *)

Lemma bind_value {A B} (m : M A) (k : A → M B) (a : A) :
  m.2 = Ret a → bind m k = (m.1 ++ (k a).1, (k a).2).
Proof. intros Hm. unfold bind. by rewrite Hm. Qed.

Lemma create_or_reuse_run sp user args target :
  create_or_reuse sp user args target
  = (if truthy_opt target
     then [Print (AddingToExisting (playlist_name args))]
     else [UserPlaylistCreate user (playlist_name args) (public args) description;
           Print (CreatedPlaylist (playlist_name args))],
     Ret (target_id sp user args target)).
Proof. unfold create_or_reuse, target_id. by destruct target as [[|c id]|]. Qed.

(** Where one record goes. *)
Lemma classify_one sp r :
  matched_ids sp [r]
  = match resolve sp r with
    | Some id => if truthy id then [id] else []
    | None => []
    end
  ∧ missed sp [r] = if truthy_opt (resolve sp r) then [] else [r].
Proof.
  unfold matched_ids, missed, is_matched. cbn [omap list_omap].
  rewrite filter_cons, filter_nil.
  destruct (resolve sp r) as [[|c id]|]; simpl; try case_decide; done.
Qed.

Lemma resolve_loop_cons sp total r rows i track_ids misses :
  resolve_loop sp total (r :: rows) i track_ids misses
  = let rest :=
      resolve_loop sp total rows (S i)
        (track_ids ++ matched_ids sp [r]) (misses ++ missed sp [r]) in
    ((best_spotify_match sp r.1.1 r.1.2 r.2).1
       ++ (if i mod 25 =? 0 then [Print (Matched i total)] else [])
       ++ rest.1,
     rest.2).
Proof.
  assert (Hone := classify_one sp r).
  destruct r as [[title artist] album]. cbn [resolve_loop].
  unfold best_spotify_match, resolve in *. cbn [fst snd] in *.
  rewrite (bind_value _ _ _ (search_loop_value sp _)).
  destruct (first_hit sp (queries title artist album)) as [[|c id]|];
    destruct Hone as [-> ->]; cbn [fst snd truthy]; rewrite ?app_nil_r;
    (destruct (i mod 25 =? 0); [rewrite bind_emit|rewrite (bind_ret [] tt)]);
    reflexivity.
Qed.

Lemma matched_ids_app sp rows1 rows2 :
  matched_ids sp (rows1 ++ rows2) = matched_ids sp rows1 ++ matched_ids sp rows2.
Proof. apply omap_app. Qed.

Lemma missed_app sp rows1 rows2 :
  missed sp (rows1 ++ rows2) = missed sp rows1 ++ missed sp rows2.
Proof. apply filter_app. Qed.

(** The resolve loop returns, with every record in one of its two lists. *)
Lemma resolve_loop_value sp total rows i track_ids misses :
  (resolve_loop sp total rows i track_ids misses).2
  = Ret (track_ids ++ matched_ids sp rows, misses ++ missed sp rows).
Proof.
  revert i track_ids misses.
  induction rows as [|r rows IH]; intros i track_ids misses.
  - simpl. by rewrite !app_nil_r.
  - rewrite resolve_loop_cons. cbv zeta. cbn [snd]. rewrite IH.
    by rewrite <- !app_assoc, <- matched_ids_app, <- missed_app.
Qed.

Lemma search_loop_events sp qs :
  Forall (λ e, resolve_event e = true) (search_loop sp qs).1.
Proof.
  induction qs as [|q qs IH]; [by constructor|].
  rewrite search_loop_cons.
  destruct (items_of (search sp q "track" 5)); simpl; repeat constructor; done.
Qed.

Lemma resolve_loop_events sp total rows i track_ids misses :
  Forall (λ e, resolve_event e = true)
    (resolve_loop sp total rows i track_ids misses).1.
Proof.
  revert i track_ids misses.
  induction rows as [|r rows IH]; intros i track_ids misses; [by constructor|].
  rewrite resolve_loop_cons. cbv zeta. cbn [fst]. rewrite !Forall_app. split_and!.
  - apply search_loop_events.
  - destruct (i mod 25 =? 0); by repeat constructor.
  - apply IH.
Qed.

Lemma report_misses_run misses :
  report_misses misses
  = (if truthy_list misses
     then [Print (CouldNotMatch (length misses));
           WriteFile report_path (report_content misses)]
     else [],
     Ret tt).
Proof. unfold report_misses. by destruct misses. Qed.

Lemma chunked_100 (track_ids : list string) :
  ∃ chunks, chunked track_ids 100 = inr chunks ∧ concat chunks = track_ids.
Proof.
  eexists. split; [by apply chunked_inr; lia|].
  rewrite (slices_concat 100) by lia. apply drop_0.
Qed.

(** ** Whole runs *)

(** A run whose pre-flight checks pass and whose playlist lookup returns
    goes through every later phase and returns. *)
Lemma main_success fuel sp env args rows target :
  let user := user_id (current_user sp) in
  let find := find_playlist fuel sp (playlist_name args) user 50 0 None in
  let track_ids := matched_ids sp rows in
  path_exists env (infile args) = true →
  truthy_opt (getenv env "SPOTIFY_USERNAME") = true →
  client_error env = None →
  read_apple_playlist_txt (reader_rows env (infile args)) = inr rows →
  rows ≠ [] →
  find.2 = Ret target →
  ∃ chunks,
    chunked track_ids 100 = inr chunks
    ∧ concat chunks = track_ids
    ∧ main fuel sp env args
      = (Print (Loaded (length rows)) :: CurrentUser :: find.1
           ++ (create_or_reuse sp user args target).1
           ++ (resolve_loop sp (length rows) rows 1 [] []).1
           ++ (PlaylistAddItems (target_id sp user args target) <$> chunks)
           ++ Print (Added (length track_ids) (playlist_name args))
              :: (report_misses (missed sp rows)).1,
         Ret tt).
Proof.
  intros user find track_ids Hfile Huser Hclient Hrows Hne Hfind.
  destruct (chunked_100 track_ids) as (chunks & Hchunks & Hconcat).
  exists chunks. split_and!; [done..|].
  unfold main. rewrite Hfile, Huser. cbn [negb].
  rewrite (bind_new_client env _ Hclient), Hrows, bind_lift_inr.
  destruct rows as [|r rows']; [done|]. cbn [truthy_list negb].
  set (rows := r :: rows') in *.
  rewrite bind_emit.
  rewrite (bind_value (sp_current_user sp) _ (current_user sp) eq_refl).
  fold user. fold find.
  rewrite (bind_value find _ target Hfind).
  rewrite create_or_reuse_run.
  rewrite (bind_ret _ (target_id sp user args target)).
  rewrite (bind_value _ _ _ (resolve_loop_value sp _ rows 1 [] [])).
  cbn [fst snd app]. fold track_ids. rewrite Hchunks, bind_lift_inr.
  rewrite add_loop_run, bind_ret, bind_emit, report_misses_run.
  reflexivity.
Qed.

Lemma find_playlist_step fuel sp name user limit offset target :
  find_playlist (S fuel) sp name user limit offset target
  = let pls := current_user_playlists sp limit offset in
    let target' := scan_items name user (page_items pls) target in
    if truthy_opt target' || negb (truthy_opt (page_next pls))
    then ([CurrentUserPlaylists limit offset], Ret target')
    else (CurrentUserPlaylists limit offset
            :: (find_playlist fuel sp name user limit (offset + limit) target').1,
          (find_playlist fuel sp name user limit (offset + limit) target').2).
Proof.
  cbn [find_playlist].
  rewrite (bind_value (sp_current_user_playlists sp limit offset) _
             (current_user_playlists sp limit offset) eq_refl).
  cbv zeta. by destruct (_ || _).
Qed.

(** The lookup returns or runs out of fuel: it neither raises nor exits. *)
Lemma find_playlist_outcome fuel sp name user limit offset target :
  (∃ found, (find_playlist fuel sp name user limit offset target).2 = Ret found)
  ∨ (find_playlist fuel sp name user limit offset target).2 = OutOfFuel.
Proof.
  revert offset target. induction fuel as [|fuel IH]; intros offset target.
  - by right.
  - rewrite find_playlist_step. cbv zeta.
    destruct (_ || _); [left; by eexists|]. apply IH.
Qed.

(** The lookup only lists pages. *)
Lemma find_playlist_events fuel sp name user limit offset target :
  Forall (λ e, ∃ o, e = CurrentUserPlaylists limit o)
    (find_playlist fuel sp name user limit offset target).1.
Proof.
  revert offset target. induction fuel as [|fuel IH]; intros offset target.
  - constructor.
  - rewrite find_playlist_step. cbv zeta.
    destruct (_ || _); cbn [fst]; repeat constructor; eauto.
Qed.

(** The three pre-flight exits, and the runs an exception cuts short. *)
Lemma main_preflight fuel sp env args :
  (path_exists env (infile args) = false →
   main fuel sp env args = ([PrintErr (InputNotFound (infile args))], Exited 1%Z))
  ∧ (path_exists env (infile args) = true →
     truthy_opt (getenv env "SPOTIFY_USERNAME") = false →
     main fuel sp env args = ([PrintErr MissingUsername], Exited 1%Z))
  ∧ (path_exists env (infile args) = true →
     truthy_opt (getenv env "SPOTIFY_USERNAME") = true →
     client_error env = None →
     read_apple_playlist_txt (reader_rows env (infile args)) = inr [] →
     main fuel sp env args = ([Print NoTracksFound], Exited 1%Z))
  ∧ (∀ e, path_exists env (infile args) = true →
     truthy_opt (getenv env "SPOTIFY_USERNAME") = true →
     client_error env = Some e →
     main fuel sp env args = ([], Raised e))
  ∧ (∀ e, path_exists env (infile args) = true →
     truthy_opt (getenv env "SPOTIFY_USERNAME") = true →
     client_error env = None →
     read_apple_playlist_txt (reader_rows env (infile args)) = inl e →
     main fuel sp env args = ([], Raised e)).
Proof.
  unfold main, new_client. split_and!.
  - by intros ->.
  - by intros -> ->.
  - by intros -> -> -> ->.
  - by intros e -> -> ->.
  - by intros e -> -> -> ->.
Qed.

(** Past the pre-flight checks the outcome of the run is the outcome of
    the playlist lookup. *)
Lemma main_past_preflight fuel sp env args rows :
  path_exists env (infile args) = true →
  truthy_opt (getenv env "SPOTIFY_USERNAME") = true →
  client_error env = None →
  read_apple_playlist_txt (reader_rows env (infile args)) = inr rows →
  rows ≠ [] →
  (main fuel sp env args).2
  = match (find_playlist fuel sp (playlist_name args)
             (user_id (current_user sp)) 50 0 None).2 with
    | Ret _ => Ret tt
    | _ => OutOfFuel
    end.
Proof.
  intros Hfile Huser Hclient Hrows Hne.
  destruct (find_playlist_outcome fuel sp (playlist_name args)
              (user_id (current_user sp)) 50 0 None) as [[target Hfind]|Hfuel].
  - destruct (main_success fuel sp env args rows target
                Hfile Huser Hclient Hrows Hne Hfind)
      as (chunks & _ & _ & ->). by rewrite Hfind.
  - rewrite Hfuel.
    unfold main. rewrite Hfile, Huser. cbn [negb].
    rewrite (bind_new_client env _ Hclient), Hrows.
    rewrite bind_lift_inr. destruct rows as [|r rows']; [done|].
    cbn [truthy_list negb]. rewrite bind_emit.
    rewrite (bind_value (sp_current_user sp) _ (current_user sp) eq_refl).
    cbn [snd]. unfold bind at 1. by rewrite Hfuel.
Qed.

(** A run in which [main] returned passed the three checks, built its
    client, parsed at least one record and found out about the
    playlist. *)
Lemma main_returned fuel sp env args :
  (main fuel sp env args).2 = Ret tt →
  path_exists env (infile args) = true
  ∧ truthy_opt (getenv env "SPOTIFY_USERNAME") = true
  ∧ client_error env = None
  ∧ ∃ rows target,
      read_apple_playlist_txt (reader_rows env (infile args)) = inr rows
      ∧ rows ≠ []
      ∧ (find_playlist fuel sp (playlist_name args)
           (user_id (current_user sp)) 50 0 None).2 = Ret target.
Proof.
  destruct (main_preflight fuel sp env args)
    as (Hfile & Huser & Hrows & Hclient & Hraise).
  destruct (path_exists env (infile args)) eqn:Ef; [|by rewrite Hfile].
  destruct (truthy_opt (getenv env "SPOTIFY_USERNAME")) eqn:Eu;
    [|by rewrite Huser].
  destruct (client_error env) as [e|] eqn:Ec; [by rewrite (Hclient e)|].
  destruct (read_apple_playlist_txt (reader_rows env (infile args)))
    as [e|rows] eqn:Er; [by rewrite (Hraise e)|].
  destruct rows as [|r rows]; [by rewrite Hrows|].
  rewrite (main_past_preflight fuel sp env args (r :: rows)) by done.
  destruct (find_playlist _ _ _ _ _ _ _).2 as [target| | |] eqn:Hfind; try done.
  intros _. split_and!; try done. by exists (r :: rows), target.
Qed.




(** ** Reading the trace of a run *)

Lemma omap_quiet {A B} (g : A → option B) (t : list A) :
  Forall (λ e, g e = None) t → omap g t = [].
Proof.
  induction 1 as [|e t He _ IH]; [done|]. simpl. rewrite He. apply IH.
Qed.

Lemma resolve_trace_quiet sp total rows i track_ids misses :
  let t := (resolve_loop sp total rows i track_ids misses).1 in
  page_requests t = [] ∧ creations t = [] ∧ appends t = [] ∧ writes t = []
  ∧ Forall (λ m, ∃ j n, m = Matched j n) (printed t).
Proof.
  intros t.
  assert (Forall (λ e, resolve_event e = true) t) as Hev
    by apply resolve_loop_events.
  split_and!.
  1-4: apply omap_quiet; eapply Forall_impl; [exact Hev|];
       by intros [| | | | | |[]| |].
  induction Hev as [|e t' He _ IH]; [constructor|].
  destruct e as [| | | | | |m| |]; try done; simpl.
  destruct m; try done. constructor; eauto.
Qed.

Lemma find_trace_quiet fuel sp name user limit offset target :
  let t := (find_playlist fuel sp name user limit offset target).1 in
  creations t = [] ∧ appends t = [] ∧ writes t = [] ∧ printed t = []
  ∧ searches t = [].
Proof.
  intros t.
  assert (Forall (λ e, ∃ o, e = CurrentUserPlaylists limit o) t) as Hev
    by apply find_playlist_events.
  split_and!; apply omap_quiet; (eapply Forall_impl; [exact Hev|]);
    by intros e [o ->].
Qed.

Lemma add_trace_appends (playlist_id : string) (chunks : list (list string)) :
  let t := PlaylistAddItems playlist_id <$> chunks in
  appends t = (λ c, (playlist_id, c)) <$> chunks
  ∧ page_requests t = [] ∧ creations t = [] ∧ writes t = [] ∧ printed t = [].
Proof.
  intros t. unfold t.
  split_and!; (induction chunks as [|c chunks IH]; [done|]); simpl;
    [by f_equal|done..].
Qed.

(** What a run that gets past the pre-flight checks does, read off its
    trace: the pages listed, the playlist created, the batches appended,
    the lines printed and the file written. *)
Lemma main_projections fuel sp env args rows target :
  let user := user_id (current_user sp) in
  let find := find_playlist fuel sp (playlist_name args) user 50 0 None in
  let run := main fuel sp env args in
  let track_ids := matched_ids sp rows in
  let misses := missed sp rows in
  path_exists env (infile args) = true →
  truthy_opt (getenv env "SPOTIFY_USERNAME") = true →
  client_error env = None →
  read_apple_playlist_txt (reader_rows env (infile args)) = inr rows →
  rows ≠ [] →
  find.2 = Ret target →
  run.2 = Ret tt
  ∧ page_requests run.1 = page_requests find.1
  ∧ creations run.1 = (if truthy_opt target then [] else [playlist_name args])
  ∧ (∃ chunks,
        chunked track_ids 100 = inr chunks
        ∧ appends run.1
          = (λ c, (target_id sp user args target, c)) <$> chunks)
  ∧ writes run.1
    = (if truthy_list misses then [(report_path, report_content misses)] else [])
  ∧ (∃ progress,
        Forall (λ m, ∃ j n, m = Matched j n) progress
        ∧ printed run.1
          = Loaded (length rows)
            :: (if truthy_opt target
                then AddingToExisting (playlist_name args)
                else CreatedPlaylist (playlist_name args))
            :: progress
            ++ Added (length track_ids) (playlist_name args)
            :: (if truthy_list misses
                then [CouldNotMatch (length misses)] else [])).
Proof.
  intros user find run track_ids misses Hfile Huser Hclient Hrows Hne Hfind.
  destruct (main_success fuel sp env args rows target Hfile Huser Hclient Hrows Hne Hfind)
    as (chunks & Hchunks & _ & Hrun).
  fold user find track_ids misses run in Hchunks, Hrun.
  destruct (find_trace_quiet fuel sp (playlist_name args) user 50 0 None)
    as (Hf1 & Hf2 & Hf3 & Hf4 & _).
  destruct (resolve_trace_quiet sp (length rows) rows 1 [] [])
    as (Hr1 & Hr2 & Hr3 & Hr4 & Hr5).
  destruct (add_trace_appends (target_id sp user args target) chunks)
    as (Ha1 & Ha2 & Ha3 & Ha4 & Ha5).
  fold find in Hf1, Hf2, Hf3, Hf4.
  rewrite Hrun, create_or_reuse_run, report_misses_run. cbn [fst snd].
  unfold page_requests, creations, appends, writes, printed in *.
  assert (∀ B (g : Event → option B) e t,
            omap g (e :: t)
            = match g e with Some y => y :: omap g t | None => omap g t end)
    as omap_cons by done.
  destruct (truthy_opt target), (truthy_list misses);
    repeat (rewrite ?omap_cons, ?omap_app, ?omap_nil; cbn beta iota);
    rewrite ?Hf1, ?Hf2, ?Hf3, ?Hf4, ?Hr1, ?Hr2, ?Hr3, ?Hr4, ?Ha1, ?Ha2, ?Ha3,
      ?Ha4, ?Ha5, ?app_nil_r; cbn [app];
    (split_and!; [done..|by exists chunks|done|eexists; split; [exact Hr5|done]]).
Qed.

(** ** Playlist lookup *)

(** The inner loop stops on the first accepted playlist of the page. *)
Lemma scan_items_first name user items target :
  scan_items name user items target
  = match head (filter (is_target name user) items) with
    | Some p => Some (pl_id p)
    | None => target
    end.
Proof.
  induction items as [|p items IH]; [done|].
  cbn [scan_items]. rewrite filter_cons.
  destruct (decide (is_target name user p)) as [[Hn Hu]|Hno].
  - by rewrite !bool_decide_eq_true_2.
  - rewrite IH. unfold is_target in Hno.
    destruct (decide (pl_name p = name)) as [Hn|Hn].
    + rewrite (bool_decide_eq_false_2 (owner_id _ = _)) by tauto.
      by rewrite andb_false_r.
    + by rewrite (bool_decide_eq_false_2 (pl_name _ = _)).
Qed.

Lemma offsets_S (offset limit n : nat) :
  (λ k, offset + k * limit) <$> seq 0 (S n)
  = offset :: ((λ k, offset + limit + k * limit) <$> seq 0 n).
Proof.
  rewrite <- cons_seq, fmap_cons. f_equal; [lia|].
  rewrite <- fmap_S_seq, <- list_fmap_compose.
  apply list_fmap_ext. intros _ k _. simpl. lia.
Qed.

(** Pages without an accepted playlist and with a next page are walked
    through; the lookup returns on the first page that has an accepted
    playlist with a non-empty identifier, or no next page. *)
Lemma find_playlist_pages sp name user limit n :
  ∀ fuel offset,
    n < fuel →
    (∀ k, k < n →
          filter (is_target name user)
            (page_items (current_user_playlists sp limit (offset + k * limit))) = []
          ∧ truthy_opt
              (page_next (current_user_playlists sp limit (offset + k * limit)))
            = true) →
    let last := current_user_playlists sp limit (offset + n * limit) in
    truthy_opt (scan_items name user (page_items last) None)
    || negb (truthy_opt (page_next last)) = true →
    find_playlist fuel sp name user limit offset None
    = (CurrentUserPlaylists limit <$> ((λ k, offset + k * limit) <$> seq 0 (S n)),
       Ret (scan_items name user (page_items last) None)).
Proof.
  induction n as [|n IH]; intros fuel offset Hfuel Hbefore last Hstop;
    (destruct fuel as [|fuel]; [lia|]); rewrite find_playlist_step; cbv zeta.
  - unfold last in *. rewrite offsets_S.
    replace (offset + 0 * limit) with offset in * by lia. by rewrite Hstop.
  - destruct (Hbefore 0 ltac:(lia)) as [Hnone Hnext].
    replace (offset + 0 * limit) with offset in * by lia.
    rewrite scan_items_first, Hnone, Hnext. cbn [head truthy_opt negb orb].
    rewrite (IH fuel (offset + limit)).
    + cbn [fst snd]. unfold last.
      replace (offset + limit + n * limit) with (offset + S n * limit) by lia.
      by rewrite (offsets_S offset limit (S n)), fmap_cons.
    + lia.
    + intros k Hk.
      replace (offset + limit + k * limit) with (offset + S k * limit) by lia.
      apply Hbefore. lia.
    + replace (offset + limit + n * limit) with (offset + S n * limit) by lia.
      exact Hstop.
Qed.

Lemma listing_S sp limit n :
  listing sp limit (S n)
  = listing sp limit n ++ page_items (current_user_playlists sp limit (n * limit)).
Proof.
  unfold listing, pages. rewrite seq_S, fmap_app, bind_app. simpl.
  by rewrite app_nil_r.
Qed.

Lemma listing_no_target sp name user limit n :
  (∀ k, k < n →
        filter (is_target name user)
          (page_items (current_user_playlists sp limit (k * limit))) = []) →
  filter (is_target name user) (listing sp limit n) = [].
Proof.
  induction n as [|n IH]; intros Hnone; [done|].
  rewrite listing_S, filter_app, IH, Hnone; [done|lia|].
  intros k Hk. apply Hnone. lia.
Qed.

Lemma page_requests_listing limit (offsets : list nat) :
  page_requests (CurrentUserPlaylists limit <$> offsets) = offsets.
Proof.
  induction offsets as [|o offsets IH]; [done|].
  rewrite fmap_cons. unfold page_requests in *. simpl. f_equal. exact IH.
Qed.

(** C4.  Take a run that passes the pre-flight checks and builds its
    client, and a listing in
    which the pages at offsets [0, 50, ..., (n-1)*50] hold no playlist with
    the requested name owned by the current user and each announce a next
    page, while the page at offset [n*50] holds such a playlist or
    announces no next page (identifiers of playlists are non-empty).
    With fuel for [n+1] pages the run returns; it requests exactly the
    pages at offsets [0, 50, ..., n*50], in that order, with page size 50;
    it creates a playlist, once and under the requested name, exactly when
    no page of the listing holds a match; and every batch is appended to
    the first match in listing order when there is one, to the created
    playlist otherwise. *)
Theorem find_or_create_playlist (fuel n : nat) (sp : Spotify) (env : Env)
    (args : Args) (rows : list SourceTrack) :
  let name := playlist_name args in
  let user := user_id (current_user sp) in
  let page := λ k, current_user_playlists sp 50 (k * 50) in
  let wanted := is_target name user in
  let run := main fuel sp env args in
  let first := head (filter wanted (listing sp 50 (S n))) in
  let destination :=
    match first with
    | Some p => pl_id p
    | None => pl_id (user_playlist_create sp user name (public args) description)
    end in
  path_exists env (infile args) = true →
  truthy_opt (getenv env "SPOTIFY_USERNAME") = true →
  client_error env = None →
  read_apple_playlist_txt (reader_rows env (infile args)) = inr rows →
  rows ≠ [] →
  (∀ k, k < n →
        filter wanted (page_items (page k)) = []
        ∧ truthy_opt (page_next (page k)) = true) →
  filter wanted (page_items (page n)) ≠ []
  ∨ truthy_opt (page_next (page n)) = false →
  (∀ p, p ∈ listing sp 50 (S n) → wanted p → pl_id p ≠ "") →
  n < fuel →
  run.2 = Ret tt
  ∧ page_requests run.1 = (λ k, k * 50) <$> seq 0 (S n)
  ∧ Forall (λ e, ∀ limit offset, e = CurrentUserPlaylists limit offset → limit = 50)
      run.1
  ∧ (creations run.1 = [name] ↔ first = None)
  ∧ (creations run.1 = [] ↔ is_Some first)
  ∧ ∃ chunks,
      chunked (matched_ids sp rows) 100 = inr chunks
      ∧ appends run.1 = (λ c, (destination, c)) <$> chunks.
Proof.
  intros name user page wanted run first destination
    Hfile Huser Hclient Hrows Hne Hbefore Hstop Hids Hfuel.
  unfold wanted in *. clear wanted.
  set (wanted := is_target name user) in *.
  assert (filter wanted (listing sp 50 (S n)) = filter wanted (page_items (page n)))
    as Hlisting.
  { rewrite listing_S, filter_app. unfold wanted.
    rewrite (listing_no_target sp name user 50 n); [done|].
    intros k Hk. by apply Hbefore. }
  set (target := scan_items name user (page_items (page n)) None).
  assert (target = pl_id <$> first) as Htarget.
  { unfold target, first. rewrite scan_items_first, Hlisting.
    by destruct (head _). }
  assert (truthy_opt target = bool_decide (is_Some first)) as Htruthy.
  { rewrite Htarget. unfold first.
    destruct (filter wanted (listing sp 50 (S n))) as [|p ps] eqn:Hf; [done|].
    simpl. assert (p ∈ filter wanted (listing sp 50 (S n))) as Hp
      by (rewrite Hf; left).
    apply list_elem_of_filter in Hp as [Hw Hin].
    specialize (Hids p Hin Hw). by destruct (pl_id p). }
  assert (find_playlist fuel sp name user 50 0 None
          = (CurrentUserPlaylists 50 <$> ((λ k, 0 + k * 50) <$> seq 0 (S n)),
             Ret target)) as Hfind.
  { apply find_playlist_pages; [done|exact Hbefore|].
    cbv zeta. change (0 + n * 50) with (n * 50).
    change (current_user_playlists sp 50 (n * 50)) with (page n).
    fold target. rewrite Htruthy. unfold first. rewrite Hlisting.
    destruct Hstop as [Hmatch| ->]; [|by rewrite orb_true_r].
    by destruct (filter wanted (page_items (page n))). }
  destruct (main_projections fuel sp env args rows target Hfile Huser Hclient Hrows Hne)
    as (Hret & Hpages & Hcreate & (chunks & Hchunks & Happends) & _ & _).
  { fold name user. by rewrite Hfind. }
  fold name user run in Hret, Hpages, Hcreate, Happends.
  rewrite Hfind in Hpages. cbn [fst] in Hpages.
  rewrite page_requests_listing in Hpages.
  split_and!.
  - done.
  - done.
  - destruct (main_success fuel sp env args rows target Hfile Huser Hclient Hrows Hne)
      as (chunks' & _ & _ & Hrun).
    { fold name user. by rewrite Hfind. }
    fold name user run in Hrun. rewrite Hrun. cbn [fst].
    rewrite create_or_reuse_run, report_misses_run. cbn [fst].
    repeat constructor; try congruence.
    rewrite !Forall_app. split_and!.
    + eapply Forall_impl; [apply find_playlist_events|].
      intros e [o ->] limit offset [= <- _]. done.
    + destruct (truthy_opt target); repeat constructor; congruence.
    + eapply Forall_impl; [apply resolve_loop_events|].
      intros e He limit offset ->. done.
    + apply Forall_fmap, Forall_forall. intros c _ limit offset. done.
    + destruct (truthy_list _); repeat constructor; congruence.
  - rewrite Hcreate, Htruthy. by destruct first.
  - rewrite Hcreate, Htruthy. destruct first; simpl; split; eauto; try done.
  - exists chunks. split; [done|]. rewrite Happends.
    unfold target_id, destination. rewrite Htruthy, Htarget.
    by destruct first.
Qed.

(** A run in which [main] returned, read off its trace. *)
Lemma main_completed fuel sp env args rows :
  let run := main fuel sp env args in
  let track_ids := matched_ids sp rows in
  let misses := missed sp rows in
  run.2 = Ret tt →
  read_apple_playlist_txt (reader_rows env (infile args)) = inr rows →
  ∃ target chunks progress,
    chunked track_ids 100 = inr chunks
    ∧ concat chunks = track_ids
    ∧ appends run.1
      = (λ c, (target_id sp (user_id (current_user sp)) args target, c)) <$> chunks
    ∧ writes run.1
      = (if truthy_list misses then [(report_path, report_content misses)] else [])
    ∧ Forall (λ m, ∃ j n, m = Matched j n) progress
    ∧ printed run.1
      = Loaded (length rows)
        :: (if truthy_opt target
            then AddingToExisting (playlist_name args)
            else CreatedPlaylist (playlist_name args))
        :: progress
        ++ Added (length track_ids) (playlist_name args)
        :: (if truthy_list misses then [CouldNotMatch (length misses)] else []).
Proof.
  intros run track_ids misses Hret Hrows.
  destruct (main_returned fuel sp env args Hret)
    as (Hfile & Huser & Hclient & rows' & target & Hrows' & Hne & Hfind).
  assert (rows' = rows) as -> by congruence.
  destruct (main_projections fuel sp env args rows target Hfile Huser Hclient Hrows Hne Hfind)
    as (_ & _ & _ & (chunks & Hchunks & Happends) & Hwrites & progress & Hprog & Hprinted).
  exists target, chunks, progress. split_and!; try done.
  destruct (chunked_100 (matched_ids sp rows)) as (chunks' & Hchunks' & Hconcat).
  unfold track_ids. congruence.
Qed.

(** ** The resolve loop and what follows it *)

Lemma matched_ids_filter sp rows :
  matched_ids sp rows
  = omap (resolve sp) (filter (λ r, is_matched sp r = true) rows).
Proof.
  induction rows as [|r rows IH]; [done|].
  rewrite filter_cons. unfold matched_ids in *. cbn [omap list_omap].
  destruct (is_matched sp r) eqn:Hr.
  - rewrite decide_True by done. cbn [omap list_omap]. by rewrite IH.
  - rewrite decide_False by done. exact IH.
Qed.

Lemma matched_ids_length sp rows :
  length (matched_ids sp rows)
  = length (filter (λ r, is_matched sp r = true) rows).
Proof.
  induction rows as [|r rows IH]; [done|].
  rewrite filter_cons. unfold matched_ids in *. cbn [omap list_omap].
  destruct (is_matched sp r) eqn:Hr.
  - rewrite decide_True by done. unfold is_matched in Hr.
    destruct (resolve sp r); [|done]. simpl. by rewrite IH.
  - rewrite decide_False by done. exact IH.
Qed.

Lemma classification_length sp rows :
  length (matched_ids sp rows) + length (missed sp rows) = length rows.
Proof.
  rewrite matched_ids_length. unfold missed.
  induction rows as [|r rows IH]; [done|].
  rewrite !filter_cons.
  destruct (is_matched sp r); simpl; lia.
Qed.

(** Every occurrence of a matched record contributes its identifier. *)
Lemma matched_ids_count sp rows r id :
  resolve sp r = Some id → id ≠ "" →
  length (filter (λ r', r' = r) rows)
  ≤ length (filter (λ x, x = id) (matched_ids sp rows)).
Proof.
  intros Hr Hid.
  assert (is_matched sp r = true) as Hm.
  { unfold is_matched. rewrite Hr. by destruct id. }
  induction rows as [|r' rows IH]; [done|].
  change (r' :: rows) with ([r'] ++ rows).
  rewrite matched_ids_app, !filter_app, !length_app.
  apply Nat.add_le_mono; [|exact IH].
  rewrite filter_cons, filter_nil.
  destruct (decide (r' = r)) as [->|Hne]; [|simpl; lia].
  unfold matched_ids. cbn [omap list_omap]. rewrite Hm, Hr.
  rewrite filter_cons, decide_True by done. simpl. lia.
Qed.

Lemma read_apple_playlist_txt_app reader1 reader2 ending rows1 rows2 :
  read_apple_playlist_txt (inr (exhausted reader1)) = inr rows1 →
  read_apple_playlist_txt (inr {| yields := reader2; ending := ending |})
  = inr rows2 →
  read_apple_playlist_txt
    (inr {| yields := reader1 ++ reader2; ending := ending |})
  = inr (rows1 ++ rows2).
Proof.
  unfold read_apple_playlist_txt, exhausted. cbn [yields Csv.ending].
  generalize (@nil SourceTrack) at 1 3 as acc. revert rows1.
  induction reader1 as [|row reader1 IH]; intros rows1 acc; simpl.
  - intros [= <-] H2. by rewrite read_loop_app, H2.
  - destruct (parse_row row) as [e|[r|]]; [done|apply IH..].
Qed.

(** C2.  In a run in which [main] returned, with [track_ids] the
    sequence of [L] identifiers the resolve loop built, the
    [playlist_add_items] calls of the run are the batches that
    [chunked(track_ids, 100)] yields, one call per batch, in sequence, all
    to one playlist.  There are ceil(L/100) calls; every batch but the
    last has exactly 100 identifiers, the last has [L mod 100], or 100
    when [L] is a positive multiple of 100; the batches concatenated give
    the sequence back, in order; and when [L = 0] no call is issued. *)
Theorem chunked_append_batches (fuel : nat) (sp : Spotify) (env : Env)
    (args : Args) (rows : list SourceTrack) :
  let run := main fuel sp env args in
  let track_ids := matched_ids sp rows in
  let L := length track_ids in
  let calls := appends run.1 in
  let batches := snd <$> calls in
  run.2 = Ret tt →
  read_apple_playlist_txt (reader_rows env (infile args)) = inr rows →
  (resolve_loop sp (length rows) rows 1 [] []).2
  = Ret (track_ids, missed sp rows)
  ∧ chunked track_ids 100 = inr batches
  ∧ (∃ playlist_id, calls = (λ batch, (playlist_id, batch)) <$> batches)
  ∧ length calls = (L + 99) / 100
  ∧ L ≤ 100 * length calls < L + 100
  ∧ concat batches = track_ids
  ∧ (∀ j batch,
        batches !! j = Some batch →
        length batch
        = if decide (S j < length calls) then 100
          else if L mod 100 =? 0 then 100 else L mod 100)
  ∧ (L = 0 → calls = []).
Proof.
  intros run track_ids L calls batches Hret Hrows.
  destruct (main_completed fuel sp env args rows Hret Hrows)
    as (target & chunks & progress & Hchunks & _ & Happends & _).
  fold run track_ids calls in Hchunks, Happends.
  assert (batches = chunks) as Hbatches.
  { unfold batches. rewrite Happends, <- list_fmap_compose.
    apply list_fmap_id. }
  assert (length calls = length chunks) as Hcalls.
  { by rewrite Happends, length_fmap. }
  destruct (batches_of_100 track_ids)
    as (chunks' & Hchunks' & Hcount & Hbounds & Hconcat & Hsizes & Hempty).
  assert (chunks' = chunks) as -> by congruence.
  rewrite Hbatches, Hcalls.
  split_and!.
  - apply resolve_loop_value.
  - exact Hchunks'.
  - eexists. exact Happends.
  - exact Hcount.
  - apply Hbounds.
  - apply Hbounds.
  - exact Hconcat.
  - exact Hsizes.
  - intros HL. by rewrite Happends, (Hempty HL).
Qed.

(** C6.  In a run in which [main] returned, the identifiers appended to
    the playlist, batch after batch, are exactly the identifiers the
    resolver returned for the records it matched, in the order of the
    source rows, the unmatched records left out: one identifier per
    matched record.  Nothing is deduplicated: a record that occurs several
    times and is matched is appended as many times, and the parser keeps
    the rows of two inputs one after the other. *)
Theorem appended_sequence (fuel : nat) (sp : Spotify) (env : Env) (args : Args)
    (rows : list SourceTrack) :
  let run := main fuel sp env args in
  let appended := concat (snd <$> appends run.1) in
  let kept := filter (λ r, is_matched sp r = true) rows in
  run.2 = Ret tt →
  read_apple_playlist_txt (reader_rows env (infile args)) = inr rows →
  (∀ r, (best_spotify_match sp r.1.1 r.1.2 r.2).2 = Ret (resolve sp r))
  ∧ (resolve_loop sp (length rows) rows 1 [] []).2
    = Ret (matched_ids sp rows, missed sp rows)
  ∧ appended = matched_ids sp rows
  ∧ appended = omap (resolve sp) kept
  ∧ length appended = length kept
  ∧ (∀ r id,
        resolve sp r = Some id → id ≠ "" →
        length (filter (λ r', r' = r) rows)
        ≤ length (filter (λ x, x = id) appended))
  ∧ (∀ reader1 reader2 ending rows1 rows2,
        read_apple_playlist_txt (inr (exhausted reader1)) = inr rows1 →
        read_apple_playlist_txt (inr {| yields := reader2; ending := ending |})
        = inr rows2 →
        read_apple_playlist_txt
          (inr {| yields := reader1 ++ reader2; ending := ending |})
        = inr (rows1 ++ rows2)).
Proof.
  intros run appended kept Hret Hrows.
  destruct (main_completed fuel sp env args rows Hret Hrows)
    as (target & chunks & progress & _ & Hconcat & Happends & _).
  assert (appended = matched_ids sp rows) as Happended.
  { unfold appended, run. rewrite Happends, <- list_fmap_compose.
    by rewrite list_fmap_id. }
  split_and!.
  - intros r. apply search_loop_value.
  - apply resolve_loop_value.
  - done.
  - rewrite Happended. apply matched_ids_filter.
  - rewrite Happended. apply matched_ids_length.
  - intros r id Hr Hid. rewrite Happended. by apply matched_ids_count.
  - apply read_apple_playlist_txt_app.
Qed.

(** ** Reading the report back *)

Section ReadBack.
Import CsvReader.
Variable limit : nat.

Lemma feed_app p a b :
  feed limit p (a +:+ b)
  = match feed limit p a with
    | inl e => inl e
    | inr p' => feed limit p' b
    end.
Proof.
  revert p. induction a as [|c a IH]; intros p; simpl; [done|].
  destruct (process_char limit p (Some c)); [done|apply IH].
Qed.

Lemma splitlines_failed text line p e :
  feed limit p line = inl e →
  read_lines limit (splitlines text line) p = failed e.
Proof.
  revert line. induction text as [|c text IH]; intros line Hfeed.
  - cbn [splitlines]. case_bool_decide as Hline.
    + by rewrite Hline in Hfeed.
    + cbn [read_lines]. by rewrite Hfeed.
  - cbn [splitlines].
    assert (feed limit p (line +:+ String c "") = inl e) as Hmore.
    { by rewrite feed_app, Hfeed. }
    destruct (line_end c text).
    + cbn [read_lines]. by rewrite Hmore.
    + by apply IH.
Qed.

(** The reader over the lines of a text goes through the text character
    by character. *)
Lemma read_lines_scan text :
  ∀ line p q,
    feed limit p line = inr q →
    read_lines limit (splitlines text line) p
    = scan limit text q (negb (bool_decide (line = ""))).
Proof.
  induction text as [|c text IH]; intros line p q Hfeed.
  - cbn [splitlines scan]. case_bool_decide as Hline; cbn [negb read_lines].
    + rewrite Hline in Hfeed. by injection Hfeed as ->.
    + by rewrite Hfeed.
  - cbn [splitlines scan].
    assert (feed limit p (line +:+ String c "")
            = match process_char limit q (Some c) with
              | inl e => inl e
              | inr q' => inr q'
              end) as Hmore.
    { rewrite feed_app, Hfeed. cbn [feed].
      by destruct (process_char limit q (Some c)). }
    destruct (process_char limit q (Some c)) as [e|q'].
    + destruct (line_end c text).
      * cbn [read_lines]. by rewrite Hmore.
      * by apply splitlines_failed.
    + destruct (line_end c text).
      * cbn [read_lines]. rewrite Hmore. unfold end_of_line.
        destruct (process_char limit q' None) as [e|q'']; [done|].
        case_bool_decide; [f_equal|]; by apply (IH "").
      * rewrite (IH _ p q' Hmore). f_equal.
        case_bool_decide as Hline; [|done]. by destruct line.
Qed.

Lemma reader_scan text : reader limit text = scan limit text reset false.
Proof. unfold reader. by rewrite (read_lines_scan text "" reset reset). Qed.


Lemma string_app_cons c (s t : string) : String c s +:+ t = String c (s +:+ t).
Proof. reflexivity. Qed.

Lemma string_app_nil_r (s : string) : s +:+ "" = s.
Proof.
  induction s as [|c s IH]; [done|]. by rewrite string_app_cons, IH.
Qed.

Lemma special_false c :
  special c = false →
  c ≠ ","%char ∧ c ≠ dq ∧ c ≠ cr ∧ c ≠ lf.
Proof.
  unfold special. rewrite !orb_false_iff.
  intros [[[?%bool_decide_eq_false ?%bool_decide_eq_false]
           ?%bool_decide_eq_false] ?%bool_decide_eq_false]. done.
Qed.

Lemma line_end_other c text : c ≠ cr → c ≠ lf → line_end c text = false.
Proof.
  intros Hcr Hlf. unfold line_end.
  by rewrite (bool_decide_eq_false_2 _ Hcr), (bool_decide_eq_false_2 _ Hlf).
Qed.

Lemma is_newline_other c : c ≠ cr → c ≠ lf → is_newline c = false.
Proof.
  intros Hcr Hlf. unfold is_newline.
  by rewrite (bool_decide_eq_false_2 _ Hcr), (bool_decide_eq_false_2 _ Hlf).
Qed.

Lemma add_char_fits p c s :
  String.length (p_field p) < limit →
  add_char limit p c s
  = inr {| p_state := s; p_field := p_field p +:+ String c "";
           p_fields := p_fields p |}.
Proof.
  intros Hfits. unfold add_char.
  by destruct (Nat.leb_spec limit (String.length (p_field p))); [lia|].
Qed.

(** The characters of an unquoted field. *)
Lemma scan_in_field s :
  ∀ buf fs c r mid,
    needs_quote s = false →
    String.length buf + String.length s ≤ limit →
    scan limit (s +:+ String c r)
      {| p_state := IN_FIELD; p_field := buf; p_fields := fs |} mid
    = scan limit (String c r)
        {| p_state := IN_FIELD; p_field := buf +:+ s; p_fields := fs |} true.
Proof.
  induction s as [|a s IH]; intros buf fs c r mid Hplain Hfits.
  - by rewrite string_app_nil_r.
  - cbn [needs_quote] in Hplain. apply orb_false_iff in Hplain as [Ha Hs].
    apply special_false in Ha as (Hcomma & Hdq & Hcr & Hlf).
    simpl in Hfits.
    change (String a s +:+ String c r) with (String a (s +:+ String c r)).
    cbn [scan process_char p_state].
    rewrite (is_newline_other a), (bool_decide_eq_false_2 _ Hcomma) by done.
    rewrite add_char_fits by (simpl; lia).
    rewrite line_end_other by done. cbn [p_field p_fields].
    rewrite IH; [|done|rewrite string_length_app; simpl; lia].
    by rewrite string_app_assoc.
Qed.

(** The content of a quoted field, up to the closing quote. *)
Lemma scan_in_quoted s :
  ∀ buf fs rest mid,
    String.length buf + String.length s ≤ limit →
    scan limit (escape s +:+ String dq rest)
      {| p_state := IN_QUOTED_FIELD; p_field := buf; p_fields := fs |} mid
    = scan limit (String dq rest)
        {| p_state := IN_QUOTED_FIELD; p_field := buf +:+ s; p_fields := fs |}
        true.
Proof.
  induction s as [|a s IH]; intros buf fs rest mid Hfits.
  - by rewrite string_app_nil_r.
  - simpl in Hfits. cbn [escape]. case_bool_decide as Ha.
    + subst a.
      change (String dq (String dq (escape s)) +:+ String dq rest)
        with (String dq (String dq (escape s +:+ String dq rest))).
      cbn [scan process_char p_state goto p_field p_fields].
      rewrite !bool_decide_eq_true_2 by done.
      rewrite line_end_other by done.
      cbn [scan process_char p_state goto p_field p_fields].
      rewrite bool_decide_eq_true_2 by done.
      rewrite add_char_fits by (simpl; lia).
      rewrite line_end_other by done. cbn [p_field p_fields].
      rewrite IH by (rewrite string_length_app; simpl; lia).
      by rewrite string_app_assoc.
    + change (String a (escape s) +:+ String dq rest)
        with (String a (escape s +:+ String dq rest)).
      cbn [scan process_char p_state].
      rewrite (bool_decide_eq_false_2 _ Ha).
      rewrite add_char_fits by (simpl; lia). cbn [p_field p_fields].
      destruct (line_end a (escape s +:+ String dq rest)).
      * unfold end_of_line. cbn [process_char p_state].
        rewrite bool_decide_eq_false_2 by done.
        rewrite IH by (rewrite string_length_app; simpl; lia).
        by rewrite string_app_assoc.
      * rewrite IH by (rewrite string_length_app; simpl; lia).
        by rewrite string_app_assoc.
Qed.

(** A field as the writer writes it, up to the character after it. *)
Lemma scan_field (v : option string) st fs c r :
  st = START_RECORD ∨ st = START_FIELD →
  String.length (default "" v) ≤ limit →
  ∃ q,
    field_done st (default "" v) fs q
    ∧ ∀ mid,
        scan limit (field v +:+ String c r)
          {| p_state := st; p_field := ""; p_fields := fs |} mid
        = scan limit (String c r) q true.
Proof.
  intros Hst Hfits. destruct v as [s|]; cbn [default field] in *;
    unfold id in *.
  2:{ eexists. split; [|done]. unfold field_done. simpl. intuition. }
  destruct (needs_quote s) eqn:Hquote.
  - exists {| p_state := QUOTE_IN_QUOTED_FIELD; p_field := s; p_fields := fs |}.
    split; [unfold field_done; simpl; intuition|]. intros mid.
    rewrite string_app_assoc.
    change (String dq (escape s) +:+ String dq "" +:+ String c r)
      with (String dq (escape s +:+ String dq (String c r))).
    assert (scan limit (String dq (escape s +:+ String dq (String c r)))
              {| p_state := st; p_field := ""; p_fields := fs |} mid
            = scan limit (escape s +:+ String dq (String c r))
                {| p_state := IN_QUOTED_FIELD; p_field := ""; p_fields := fs |}
                true) as ->.
    { cbn [scan]. rewrite line_end_other by done.
      by destruct Hst as [-> | ->]. }
    rewrite scan_in_quoted by (simpl; lia). change ("" +:+ s) with s.
    cbn [scan process_char p_state goto p_field p_fields].
    rewrite bool_decide_eq_true_2 by done.
    by rewrite line_end_other.
  - destruct s as [|a s].
    { eexists. split; [|done]. unfold field_done. simpl. intuition. }
    exists {| p_state := IN_FIELD; p_field := String a s; p_fields := fs |}.
    split; [unfold field_done; simpl; intuition|]. intros mid.
    cbn [needs_quote] in Hquote. apply orb_false_iff in Hquote as [Ha Hs].
    apply special_false in Ha as (Hcomma & Hdq & Hcr & Hlf).
    simpl in Hfits.
    change (String a s +:+ String c r) with (String a (s +:+ String c r)).
    assert (scan limit (String a (s +:+ String c r))
              {| p_state := st; p_field := ""; p_fields := fs |} mid
            = scan limit (s +:+ String c r)
                {| p_state := IN_FIELD; p_field := String a ""; p_fields := fs |}
                true) as ->.
    { cbn [scan]. rewrite line_end_other by done.
      assert (process_char limit
                {| p_state := st; p_field := ""; p_fields := fs |} (Some a)
              = inr {| p_state := IN_FIELD; p_field := String a "";
                       p_fields := fs |}) as ->; [|done].
      assert (start_field limit
                {| p_state := st; p_field := ""; p_fields := fs |} (Some a)
              = inr {| p_state := IN_FIELD; p_field := String a "";
                       p_fields := fs |}) as Hstart.
      { unfold start_field.
        rewrite (is_newline_other a), (bool_decide_eq_false_2 _ Hdq),
          (bool_decide_eq_false_2 _ Hcomma) by done.
        by rewrite add_char_fits by (simpl; lia). }
      destruct Hst as [-> | ->]; cbn [process_char p_state]; [|done].
      by rewrite (is_newline_other a). }
    by rewrite scan_in_field by (simpl; try done; lia).
Qed.

(** The comma after a field. *)
Lemma scan_comma st s fs q r mid :
  st = START_RECORD ∨ st = START_FIELD →
  field_done st s fs q →
  scan limit (String "," r) q mid
  = scan limit r
      {| p_state := START_FIELD; p_field := ""; p_fields := fs ++ [s] |} true.
Proof.
  intros Hst (Hfield & Hfields & Hstate). destruct q as [st' buf fs'].
  cbn [p_field p_fields p_state] in Hfield, Hfields, Hstate.
  subst buf fs'. cbn [scan]. rewrite line_end_other by done.
  assert (process_char limit
            {| p_state := st'; p_field := s; p_fields := fs |} (Some ","%char)
          = inr {| p_state := START_FIELD; p_field := "";
                   p_fields := fs ++ [s] |}) as ->; [|done].
  destruct Hstate as [-> |[-> |[-> ->]]]; [done..|].
  by destruct Hst as [-> | ->].
Qed.

(** The line terminator after the last field of a record. *)
Lemma scan_crlf s fs q r mid :
  field_done START_FIELD s fs q →
  scan limit (String cr (String lf r)) q mid
  = yield (fs ++ [s]) (scan limit r reset false).
Proof.
  intros (Hfield & Hfields & Hstate). destruct q as [st' buf fs'].
  cbn [p_field p_fields p_state] in Hfield, Hfields, Hstate.
  subst buf fs'. cbn [scan].
  assert (process_char limit
            {| p_state := st'; p_field := s; p_fields := fs |} (Some cr)
          = inr {| p_state := EAT_CRNL; p_field := "";
                   p_fields := fs ++ [s] |}) as ->.
  { by destruct Hstate as [-> |[-> |[-> ->]]]. }
  assert (line_end cr (String lf r) = false) as -> by done.
  cbn [process_char p_state].
  assert (is_newline lf = true) as -> by done.
  assert (line_end lf r = true) as -> by done.
  done.
Qed.

(** A row of three fields, as [writerow] writes it, is read back as one
    record of three fields. *)
Lemma scan_writerow (v1 v2 v3 : option string) r mid :
  String.length (default "" v1) ≤ limit →
  String.length (default "" v2) ≤ limit →
  String.length (default "" v3) ≤ limit →
  scan limit (writerow [v1; v2; v3] +:+ r) reset mid
  = yield [default "" v1; default "" v2; default "" v3]
      (scan limit r reset false).
Proof.
  intros H1 H2 H3. unfold writerow, join_fields.
  cbn [fmap list_fmap foldl]. rewrite !string_app_assoc.
  change ("," +:+ ?x) with (String ","%char x).
  destruct (scan_field v1 START_RECORD [] ","%char
              (field v2 +:+ String "," (field v3 +:+
                 String cr (String lf "") +:+ r)))
    as (q1 & Hq1 & ->); [auto|done|].
  rewrite (scan_comma START_RECORD _ _ _ _ _ (or_introl eq_refl) Hq1).
  destruct (scan_field v2 START_FIELD ([] ++ [default "" v1]) ","%char
              (field v3 +:+ String cr (String lf "") +:+ r))
    as (q2 & Hq2 & ->); [auto|done|].
  rewrite (scan_comma START_FIELD _ _ _ _ _ (or_intror eq_refl) Hq2).
  change (String cr (String lf "") +:+ r) with (String cr (String lf r)).
  destruct (scan_field v3 START_FIELD
              (([] ++ [default "" v1]) ++ [default "" v2]) cr (String lf r))
    as (q3 & Hq3 & ->); [auto|done|].
  by rewrite (scan_crlf _ _ _ _ _ Hq3).
Qed.

Lemma scan_writerows (misses : list SourceTrack) :
  Forall (λ r, Forall (λ s, String.length s ≤ limit) (miss_fields r)) misses →
  scan limit (writerows (report_row <$> misses)) reset false
  = exhausted (miss_fields <$> misses).
Proof.
  induction 1 as [|r misses Hr _ IH]; [done|].
  rewrite fmap_cons. cbn [writerows foldr].
  fold (writerows (report_row <$> misses)).
  unfold miss_fields in Hr.
  apply Forall_cons in Hr as [H1 [H2 [H3 _]%Forall_cons]%Forall_cons].
  change (report_row r) with [Some r.1.1; Some r.1.2; r.2].
  rewrite scan_writerow by done. by rewrite IH.
Qed.

(** The report is read back as its header and one record of three
    fields per miss. *)
Lemma reader_report_content (misses : list SourceTrack) :
  6 ≤ limit →
  Forall (λ r, Forall (λ s, String.length s ≤ limit) (miss_fields r)) misses →
  reader limit (report_content misses)
  = exhausted (["Title"; "Artist"; "Album"] :: (miss_fields <$> misses)).
Proof.
  intros Hlimit Hfit. rewrite reader_scan. unfold report_content, report_header.
  rewrite scan_writerow by (simpl; lia). by rewrite scan_writerows.
Qed.

End ReadBack.

(** C8.  In a run in which [main] returned, with [misses] the list of
    unmatched records the resolve loop built, the report is written exactly
    when [misses] is not empty.  When written, it is the one file
    written, at the path "misses.csv", and replaces whatever the file
    held; it starts with the line [Title,Artist,Album] and goes on with
    one line per unmatched record, in order, the album field empty for a
    record without album.  Read back by [csv.reader], the content is the
    header row and then exactly one row of three columns per unmatched
    record, in order, holding its title, its artist and its album (the
    empty string when absent), whatever commas, quotes and line breaks
    they contain, as long as they fit the field size limit of the
    reader. *)
Theorem miss_report (fuel : nat) (sp : Spotify) (env : Env) (args : Args)
    (rows : list SourceTrack) (fs : gmap string string) :
  let run := main fuel sp env args in
  let misses := missed sp rows in
  let crlf := String cr (String lf "") in
  let line := λ r : SourceTrack,
    field (Some r.1.1) +:+ "," +:+ field (Some r.1.2) +:+ ","
    +:+ field r.2 +:+ crlf in
  run.2 = Ret tt →
  read_apple_playlist_txt (reader_rows env (infile args)) = inr rows →
  (resolve_loop sp (length rows) rows 1 [] []).2
  = Ret (matched_ids sp rows, misses)
  ∧ (writes run.1 = [] ↔ misses = [])
  ∧ (misses = [] → fs_after run.1 fs = fs)
  ∧ (misses ≠ [] →
     writes run.1 = [("misses.csv", report_content misses)]
     ∧ fs_after run.1 fs = <["misses.csv" := report_content misses]> fs)
  ∧ report_content misses
    = "Title,Artist,Album" +:+ crlf
      +:+ foldr (λ r rest, line r +:+ rest) "" misses
  ∧ (∀ title artist,
        line (title, artist, None)
        = field (Some title) +:+ "," +:+ field (Some artist) +:+ "," +:+ crlf)
  ∧ (∀ limit,
        6 ≤ limit →
        (∀ r, r ∈ misses →
              String.length r.1.1 ≤ limit ∧ String.length r.1.2 ≤ limit
              ∧ String.length (default "" r.2) ≤ limit) →
        CsvReader.reader limit (report_content misses)
        = exhausted
            (["Title"; "Artist"; "Album"]
               :: ((λ r : SourceTrack, [r.1.1; r.1.2; default "" r.2])
                     <$> misses))).
Proof.
  intros run misses crlf line Hret Hrows.
  destruct (main_completed fuel sp env args rows Hret Hrows)
    as (target & chunks & progress & _ & _ & _ & Hwrites & _).
  fold run misses in Hwrites. unfold fs_after. rewrite Hwrites.
  split_and!.
  - apply resolve_loop_value.
  - by destruct misses.
  - by intros ->.
  - intros Hne. by destruct misses.
  - unfold report_content. rewrite <- string_app_assoc. f_equal.
    clear Hwrites. generalize misses as ms.
    induction ms as [|r ms IH]; [done|].
    rewrite fmap_cons. cbn [writerows foldr].
    fold (writerows (report_row <$> ms)).
    rewrite IH. unfold line, writerow, report_row, join_fields.
    cbn [fmap list_fmap foldl]. by rewrite !string_app_assoc.
  - done.
  - intros limit Hlimit Hfit. apply reader_report_content; [done|].
    apply Forall_forall. intros r Hr.
    destruct (Hfit r Hr) as (H1 & H2 & H3).
    unfold miss_fields. by repeat constructor.
Qed.

(** C10.  The resolve loop returns with every parsed record in exactly
    one of its two lists: the identifiers of the matched records and the
    unmatched records add up to the number of records, and a record is
    among the misses exactly when it is not matched.  In a run in which
    [main] returned, the summary states these two lengths: the only
    "Added" line carries the number of identifiers, and a "Could not
    match" line, printed when there are misses, carries their number. *)
Theorem classification_counts (fuel : nat) (sp : Spotify) (env : Env)
    (args : Args) (rows : list SourceTrack) :
  let run := main fuel sp env args in
  let track_ids := matched_ids sp rows in
  let misses := missed sp rows in
  run.2 = Ret tt →
  read_apple_playlist_txt (reader_rows env (infile args)) = inr rows →
  (resolve_loop sp (length rows) rows 1 [] []).2 = Ret (track_ids, misses)
  ∧ length track_ids + length misses = length rows
  ∧ length track_ids = length (filter (λ r, is_matched sp r = true) rows)
  ∧ (∀ r, r ∈ rows → (r ∈ misses ↔ is_matched sp r = false))
  ∧ (∀ n name,
        Added n name ∈ printed run.1
        ↔ n = length track_ids ∧ name = playlist_name args)
  ∧ (∀ n, CouldNotMatch n ∈ printed run.1 ↔ n = length misses ∧ misses ≠ []).
Proof.
  intros run track_ids misses Hret Hrows.
  destruct (main_completed fuel sp env args rows Hret Hrows)
    as (target & chunks & progress & _ & _ & _ & _ & Hprog & Hprinted).
  fold run track_ids misses in Hprinted.
  assert (∀ m, m ∈ progress → ∃ j n, m = Matched j n) as Hprogress.
  { by apply Forall_forall. }
  split_and!.
  - apply resolve_loop_value.
  - apply classification_length.
  - apply matched_ids_length.
  - intros r Hr. unfold misses, missed. rewrite list_elem_of_filter. tauto.
  - intros n name. rewrite Hprinted.
    rewrite !elem_of_cons, elem_of_app, elem_of_cons. split.
    + intros [?|[Hm|[(j & k & ?)%Hprogress|[[= -> ->]|Hm]]]]; try done.
      * by destruct (truthy_opt target).
      * destruct (truthy_list misses); [|by apply elem_of_nil in Hm].
        by apply list_elem_of_singleton in Hm.
    + intros [-> ->]. auto.
  - intros n. rewrite Hprinted.
    rewrite !elem_of_cons, elem_of_app, elem_of_cons. split.
    + intros [?|[Hm|[(j & k & ?)%Hprogress|[?|Hm]]]]; try done.
      * by destruct (truthy_opt target).
      * destruct misses; [by apply elem_of_nil in Hm|].
        apply list_elem_of_singleton in Hm as [= ->]. done.
    + intros [-> Hne]. destruct misses; [done|].
      do 4 right. by left.
Qed.

(** ** The scenario of the specification, run through the theorems *)

(** A hit on the third of four rungs: three searches, two sleeps. *)
Example ladder_third_rung :
  best_spotify_match Scenario.sp_text "Song A" "Artist A" (Some "Album A")
  = ([Search (query_album "Song A" "Artist A" "Album A") "track" 5; Sleep;
      Search (query_fields "Song A" "Artist A") "track" 5; Sleep;
      Search "Song A Artist A" "track" 5],
     Ret (Some "id-a")).
Proof. by vm_compute. Qed.

(** Without album the first rung is skipped; three empty answers give a
    miss. *)
Example ladder_no_album_miss :
  best_spotify_match Scenario.sp "Song B" "Artist B" None
  = ([Search (query_fields "Song B" "Artist B") "track" 5; Sleep;
      Search "Song B Artist B" "track" 5; Sleep;
      Search "Song B" "track" 5; Sleep],
     Ret None).
Proof. by vm_compute. Qed.

(** The whole run: two pages listed, the existing playlist reused, one
    batch appended, one miss reported; exit status 0. *)
Example scenario_run :
  main 2 Scenario.sp Scenario.env Scenario.args
  = ([Print (Loaded 2); CurrentUser;
      CurrentUserPlaylists 50 0; CurrentUserPlaylists 50 50;
      Print (AddingToExisting "X");
      Search (query_album "Song A" "Artist A" "Album A") "track" 5;
      Search (query_fields "Song B" "Artist B") "track" 5; Sleep;
      Search "Song B Artist B" "track" 5; Sleep;
      Search "Song B" "track" 5; Sleep;
      PlaylistAddItems "pl-x" ["id-a"];
      Print (Added 1 "X"); Print (CouldNotMatch 1);
      WriteFile "misses.csv"
        ("Title,Artist,Album" +:+ String cr (String lf "")
         +:+ "Song B,Artist B," +:+ String cr (String lf ""))],
     Ret tt)
  ∧ exit_code (main 2 Scenario.sp Scenario.env Scenario.args).2 = Some 0%Z.
Proof. by vm_compute. Qed.

Lemma scenario_parsed :
  read_apple_playlist_txt (reader_rows Scenario.env (infile Scenario.args))
  = inr Scenario.rows.
Proof. by vm_compute. Defined.

Lemma scenario_returns :
  (main 2 Scenario.sp Scenario.env Scenario.args).2 = Ret tt.
Proof. by vm_compute. Defined.

(** The playlist "X" sits on the second page: both pages are requested,
    nothing is created, and the batch goes to "pl-x". *)
Lemma find_or_create_playlist_witness :
  (main 2 Scenario.sp Scenario.env Scenario.args).2 = Ret tt
  ∧ page_requests (main 2 Scenario.sp Scenario.env Scenario.args).1 = [0; 50]
  ∧ creations (main 2 Scenario.sp Scenario.env Scenario.args).1 = []
  ∧ appends (main 2 Scenario.sp Scenario.env Scenario.args).1
    = [("pl-x", ["id-a"])].
Proof.
  destruct (find_or_create_playlist 2 1 Scenario.sp Scenario.env Scenario.args
              Scenario.rows)
    as (Hret & Hpages & _ & _ & Hcreate & chunks & Hchunks & Happends).
  - reflexivity.
  - reflexivity.
  - reflexivity.
  - exact scenario_parsed.
  - discriminate.
  - intros k Hk. assert (k = 0) as -> by lia. split; by vm_compute.
  - left. by vm_compute.
  - intros p Hp _. vm_compute in Hp.
    apply elem_of_cons in Hp as [->|Hp]; [discriminate|].
    apply elem_of_cons in Hp as [->|Hp]; [discriminate|].
    by apply elem_of_nil in Hp.
  - lia.
  - split_and!.
    + exact Hret.
    + exact Hpages.
    + apply Hcreate. vm_compute. eauto.
    + rewrite Happends. vm_compute in Hchunks.
      injection Hchunks as <-. by vm_compute.
Defined.

(** One record is matched, one is missed: "id-a" alone is appended. *)
Lemma chunked_append_batches_witness :
  (main 2 Scenario.sp Scenario.env Scenario.args).2 = Ret tt
  ∧ appends (main 2 Scenario.sp Scenario.env Scenario.args).1
    = [("pl-x", ["id-a"])]
  ∧ chunked ["id-a"] 100 = inr [["id-a"]].
Proof.
  destruct (chunked_append_batches 2 Scenario.sp Scenario.env Scenario.args
              Scenario.rows scenario_returns scenario_parsed)
    as (_ & Hchunks & _).
  split; [exact scenario_returns|]. split; [by vm_compute|].
  exact Hchunks.
Defined.

Lemma appended_sequence_witness :
  (main 2 Scenario.sp Scenario.env Scenario.args).2 = Ret tt
  ∧ concat (snd <$> appends (main 2 Scenario.sp Scenario.env Scenario.args).1)
    = ["id-a"].
Proof.
  destruct (appended_sequence 2 Scenario.sp Scenario.env Scenario.args
              Scenario.rows scenario_returns scenario_parsed)
    as (_ & _ & Happended & _).
  split; [exact scenario_returns|].
  rewrite Happended. by vm_compute.
Defined.

(** The report holds the header and the one missed record, without
    album. *)
Lemma miss_report_witness :
  (main 2 Scenario.sp Scenario.env Scenario.args).2 = Ret tt
  ∧ fs_after (main 2 Scenario.sp Scenario.env Scenario.args).1
      {[ "misses.csv" := "stale" ]} !! "misses.csv"
    = Some ("Title,Artist,Album" +:+ String cr (String lf "")
            +:+ "Song B,Artist B," +:+ String cr (String lf ""))
  ∧ CsvReader.reader CsvReader.field_size_limit
      (report_content (missed Scenario.sp Scenario.rows))
    = exhausted [["Title"; "Artist"; "Album"]; ["Song B"; "Artist B"; ""]].
Proof.
  destruct (miss_report 2 Scenario.sp Scenario.env Scenario.args Scenario.rows
              {[ "misses.csv" := "stale" ]} scenario_returns scenario_parsed)
    as (_ & _ & _ & Hwritten & Hcontent & _ & Hread).
  split; [exact scenario_returns|]. split.
  - destruct Hwritten as [_ ->]; [by vm_compute|].
    rewrite lookup_insert_eq, Hcontent. by vm_compute.
  - rewrite (Hread CsvReader.field_size_limit).
    + by vm_compute.
    + apply Nat.leb_le. by vm_compute.
    + intros r Hr. vm_compute in Hr.
      apply list_elem_of_singleton in Hr as ->.
      split_and!; apply Nat.leb_le; by vm_compute.
Defined.

(** A title with a comma and a quote, an artist over two lines: the row
    is quoted where it must be, and read back as three columns. *)
Example report_special_characters :
  let miss : SourceTrack :=
    ("Hello, " +:+ String dq "World" +:+ String dq "",
     "A" +:+ String lf "B", None) in
  report_content [miss]
  = "Title,Artist,Album" +:+ String cr (String lf "")
    +:+ String dq "Hello, " +:+ String dq (String dq "World")
    +:+ String dq (String dq (String dq ","))
    +:+ String dq "A" +:+ String lf "B" +:+ String dq ","
    +:+ String cr (String lf "")
  ∧ CsvReader.reader CsvReader.field_size_limit (report_content [miss])
    = exhausted [["Title"; "Artist"; "Album"]; [miss.1.1; miss.1.2; ""]].
Proof. split; by vm_compute. Qed.

(** Two records, one identifier, one miss. *)
Lemma classification_counts_witness :
  (main 2 Scenario.sp Scenario.env Scenario.args).2 = Ret tt
  ∧ length (matched_ids Scenario.sp Scenario.rows)
    + length (missed Scenario.sp Scenario.rows) = 2
  ∧ Added 1 "X" ∈ printed (main 2 Scenario.sp Scenario.env Scenario.args).1
  ∧ CouldNotMatch 1 ∈ printed (main 2 Scenario.sp Scenario.env Scenario.args).1.
Proof.
  destruct (classification_counts 2 Scenario.sp Scenario.env Scenario.args
              Scenario.rows scenario_returns scenario_parsed)
    as (_ & Hsum & _ & _ & Hadded & Hmissed).
  split_and!.
  - exact scenario_returns.
  - exact Hsum.
  - apply Hadded. by vm_compute.
  - apply Hmissed. by vm_compute.
Defined.

(** ** Header synonyms *)

(** Below, [f] renames the columns and sends no other column of the
    header to the image of [k]. *)
Section Rename.
Variable f : string → string.
Variable k : string.

Lemma zip_fill_rename header :
  (∀ x, x ∈ header → f x = f k → x = k) →
  ∀ row (d d' : gmap string cell),
    d' !! f k = d !! k →
    foldl (λ d kv, <[kv.1 := Str kv.2]> d) d' (zip (f <$> header) row) !! f k
    = foldl (λ d kv, <[kv.1 := Str kv.2]> d) d (zip header row) !! k.
Proof.
  induction header as [|x header IH]; intros Hapart row d d' Hd; [done|].
  destruct row as [|v row]; [done|]. cbn [fmap list_fmap zip zip_with foldl].
  apply IH.
  - intros y Hy. apply Hapart. by right.
  - cbn [fst snd]. destruct (decide (x = k)) as [->|Hne].
    + by rewrite !lookup_insert_eq.
    + rewrite !lookup_insert_ne; [done..|].
      intros Hf. apply Hne, Hapart; [by left|done].
Qed.

Lemma none_fill_rename header :
  (∀ x, x ∈ header → f x = f k → x = k) →
  ∀ (d d' : gmap string cell),
    d' !! f k = d !! k →
    foldl (λ d k, <[k := NoneVal]> d) d' (f <$> header) !! f k
    = foldl (λ d k, <[k := NoneVal]> d) d header !! k.
Proof.
  induction header as [|x header IH]; intros Hapart d d' Hd; [done|].
  cbn [fmap list_fmap foldl]. apply IH.
  - intros y Hy. apply Hapart. by right.
  - destruct (decide (x = k)) as [->|Hne].
    + by rewrite !lookup_insert_eq.
    + rewrite !lookup_insert_ne; [done..|].
      intros Hf. apply Hne, Hapart; [by left|done].
Qed.

(** Renaming the columns renames the keys of the row. *)
Lemma dict_row_rename header row :
  (∀ x, x ∈ header → f x = f k → x = k) →
  dict_row (f <$> header) row !! f k = dict_row header row !! k.
Proof.
  intros Hapart. unfold dict_row. rewrite <- fmap_drop.
  apply none_fill_rename.
  - intros x Hx. apply Hapart. by eapply subseteq_drop.
  - by apply zip_fill_rename.
Qed.
End Rename.

(** A name that is no column of the header is no key of the row. *)
Lemma dict_row_absent header row x :
  x ∉ header → dict_row header row !! x = None.
Proof.
  intros Hx. unfold dict_row.
  assert (∀ keys (d : gmap string cell),
            x ∉ keys → d !! x = None →
            foldl (λ d k, <[k := NoneVal]> d) d keys !! x = None) as Hfill.
  { induction keys as [|y keys IH]; intros d Hin Hd; [done|].
    apply not_elem_of_cons in Hin as [Hne Hin]. simpl. apply IH; [done|].
    by rewrite lookup_insert_ne. }
  apply Hfill.
  - intros Hin. apply Hx. by eapply subseteq_drop.
  - clear Hfill. generalize (∅ : gmap string cell) (lookup_empty (M:=gmap string) (A:=cell) x).
    revert row. induction header as [|y header IH]; intros row d Hd; [done|].
    apply not_elem_of_cons in Hx as [Hne Hx].
    destruct row as [|v row]; [done|]. simpl. apply IH; [done|].
    by rewrite lookup_insert_ne.
Qed.

(** A lookup over keys of which at most [k] is a key of the row reads
    the cell under [k]. *)
Lemma pick_single row keys k :
  k ∈ keys →
  (∀ x, x ∈ keys → x ≠ k → row !! x = None) →
  pick row keys
  = match row !! k with
    | Some c => cell_strip c
    | None => inr ""
    end.
Proof.
  intros Hk Hothers.
  assert (∀ keys', (∀ x, x ∈ keys' → x ≠ k → row !! x = None) →
            (k ∈ keys' ∨ pick row keys' = inr "") ∧
            (k ∈ keys' →
             pick row keys'
             = match row !! k with
               | Some c => cell_strip c
               | None => inr ""
               end)) as Hgen.
  { induction keys' as [|x keys' IH]; intros Hnone.
    - split; [by right|by intros ?%elem_of_nil].
    - destruct IH as [IH1 IH2].
      { intros y Hy. apply Hnone. by right. }
      split.
      + destruct (decide (x = k)) as [->|Hne]; [left; by left|].
        destruct IH1 as [?|Hrest]; [left; by right|right].
        simpl. by rewrite (Hnone x (list_elem_of_here _ _) Hne).
      + intros Hin. simpl.
        destruct (decide (x = k)) as [->|Hne].
        * destruct (row !! k) as [[s|]|] eqn:Hrow; simpl.
          -- destruct (truthy (strip s)) eqn:Hs; [done|].
             assert (strip s = "") as Hblank by (by destruct (strip s)).
             rewrite Hblank.
             destruct IH1 as [Hin' | ->]; [|done].
             rewrite (IH2 Hin'). simpl. by rewrite Hblank.
          -- done.
          -- destruct IH1 as [Hin' | ->]; [|done]. by rewrite (IH2 Hin').
        * rewrite (Hnone x (list_elem_of_here _ _) Hne). apply IH2.
          by apply elem_of_cons in Hin as [?|?]. }
  by apply Hgen.
Qed.

(** A lookup does not see the renaming of its column, provided the
    header has no other accepted name of the field. *)
Lemma pick_renamed (f : string → string) header row keys c :
  f c ∈ keys → c ∈ keys →
  (∀ x, x ∈ header → f x = f c → x = c) →
  (∀ x, x ∈ keys → x ≠ f c → x ∉ f <$> header) →
  (∀ x, x ∈ keys → x ≠ c → x ∉ header) →
  pick (dict_row (f <$> header) row) keys = pick (dict_row header row) keys.
Proof.
  intros Hfc Hc Hapart Himage Hheader.
  rewrite (pick_single _ keys (f c)), (pick_single _ keys c); try done.
  - by rewrite dict_row_rename.
  - intros x Hx Hne. by apply dict_row_absent, Hheader.
  - intros x Hx Hne. by apply dict_row_absent, Himage.
Qed.

Lemma read_loop_ext (g1 g2 : list string → gmap string cell) lines ending rows :
  (∀ line, parse_row (g1 line) = parse_row (g2 line)) →
  read_loop (g1 <$> lines) ending rows = read_loop (g2 <$> lines) ending rows.
Proof.
  intros Hext. revert rows.
  induction lines as [|line lines IH]; intros rows; [done|].
  rewrite !fmap_cons. cbn [read_loop]. rewrite Hext.
  destruct (parse_row (g2 line)) as [e|[r|]]; [done|apply IH..].
Qed.

(** Membership in a list given by its elements, as a disjunction. *)
Ltac split_mem H :=
  repeat (apply elem_of_cons in H as [H|H]);
  [..|by apply elem_of_nil in H].

(** X2.  Header synonyms.  Take a header in which title, artist and album
    appear only under their canonical names "Name", "Artist", "Album",
    and replace each canonical name by any accepted name of its field.
    Whatever the data lines, the parser gives the same outcome under the
    two headers: the same records, or the same exception. *)
Theorem header_synonyms (header : list string) (title artist album : string)
    (lines : list (list string)) (ending : option exn) :
  title ∈ title_keys → artist ∈ artist_keys → album ∈ album_keys →
  (∀ x, x ∈ header → x ∉ synonyms) →
  read_apple_playlist_txt
    (inr (dict_reader
            {| yields := (rename_columns title artist album <$> header) :: lines;
               ending := ending |}))
  = read_apple_playlist_txt
      (inr (dict_reader {| yields := header :: lines; ending := ending |})).
Proof.
  intros Ht Ha Hl Hheader.
  unfold read_apple_playlist_txt, dict_reader. cbn [yields Csv.ending].
  apply read_loop_ext. intros line. unfold parse_row.
  assert (∀ x, x ∈ header →
            x ≠ "Title" ∧ x ≠ "Track Name" ∧ x ≠ "Artist Name"
            ∧ x ≠ "Album Title" ∧ x ≠ "Album Name") as Hplain.
  { intros x Hx. specialize (Hheader x Hx). unfold synonyms in Hheader.
    rewrite !not_elem_of_cons in Hheader. tauto. }
  clear Hheader.
  unfold title_keys, artist_keys, album_keys in Ht, Ha, Hl.
  split_mem Ht; split_mem Ha; split_mem Hl; subst title artist album.
  all: rewrite !(pick_renamed _ header line title_keys "Name"),
         !(pick_renamed _ header line artist_keys "Artist"),
         !(pick_renamed _ header line album_keys "Album"); [done|..].
  all: try (apply (bool_decide_unpack _); by vm_compute).
  all: try (intros x Hx Hne Hin; destruct (Hplain x Hin) as (?&?&?&?&?);
            split_mem Hx; congruence).
  all: try (intros x Hx Hfx; destruct (Hplain x Hx) as (?&?&?&?&?);
            unfold rename_columns in Hfx;
            repeat case_bool_decide; congruence).
  all: intros x Hx Hne [y [Hy Hin]]%list_elem_of_fmap;
       destruct (Hplain y Hin) as (?&?&?&?&?);
       unfold rename_columns in Hy, Hne;
       split_mem Hx; repeat case_bool_decide; congruence.
Qed.

(** X1.  Rows with string cells.  When the cells a row holds under the
    accepted column names are all strings, the parser emits a record
    exactly when the title and the artist it resolves are non-empty after
    trimming; the record holds the trimmed values, and [None] as album
    when no album column holds a non-blank value. *)
Theorem parse_row_filter (row : gmap string cell) :
  let title := first_nonblank row title_keys in
  let artist := first_nonblank row artist_keys in
  let album := first_nonblank row album_keys in
  str_cells row title_keys → str_cells row artist_keys →
  str_cells row album_keys →
  pick row title_keys = inr title
  ∧ pick row artist_keys = inr artist
  ∧ pick row album_keys = inr album
  ∧ (title ≠ "" ∧ artist ≠ "" →
     parse_row row
     = inr (Some (title, artist, if decide (album = "") then None else Some album)))
  ∧ (title = "" ∨ artist = "" → parse_row row = inr None).
Proof.
  intros title artist album Ht Ha Hl.
  rewrite (parse_row_str_cells row Ht Ha Hl), !pick_str_cells by done.
  fold title artist album. split_and!; try done.
  - intros [Htitle Hartist].
    destruct title as [|c t], artist as [|c' a]; [done..|].
    by destruct album.
  - intros [->| ->]; [done|]. by rewrite andb_false_r.
Qed.

Lemma parse_row_filter_witness :
  parse_row (dict_row Sample.header ["Song B"; " Artist B "; "  "])
  = inr (Some ("Song B", "Artist B", None)).
Proof.
  destruct (parse_row_filter (dict_row Sample.header ["Song B"; " Artist B "; "  "]))
    as (_ & _ & _ & Hemit & _).
  - intros k Hk. split_mem Hk; subst k; by vm_compute.
  - intros k Hk. split_mem Hk; subst k; by vm_compute.
  - intros k Hk. split_mem Hk; subst k; by vm_compute.
  - rewrite Hemit; [by vm_compute|]. split; by vm_compute.
Defined.

Lemma header_synonyms_witness :
  read_apple_playlist_txt
    (inr (dict_reader
            {| yields := ["Track Name"; "Artist Name"; "Album Title"; "Time"]
                         :: [ ["Song A"; "Artist A"; "Album A"; "3:01"];
                              ["Song B"; "Artist B"; ""; "2:45"] ];
               ending := None |}))
  = inr Scenario.rows.
Proof.
  rewrite (header_synonyms ["Name"; "Artist"; "Album"; "Time"]
             "Track Name" "Artist Name" "Album Title").
  - by vm_compute.
  - apply (bool_decide_unpack _). by vm_compute.
  - apply (bool_decide_unpack _). by vm_compute.
  - apply (bool_decide_unpack _). by vm_compute.
  - intros x Hx. split_mem Hx; subst x; apply (bool_decide_unpack _);
      by vm_compute.
Defined.

(** * Further properties of the code *)

(** ** Trimming *)

Lemma lstrip_idemp s : lstrip (lstrip s) = lstrip s.
Proof.
  induction s as [|c s IH]; [done|]. simpl.
  destruct (isspace c) eqn:Hc; [done|]. simpl. by rewrite Hc.
Qed.

Lemma rstrip_cons_nonspace c s :
  isspace c = false → rstrip (String c s) = String c (rstrip s).
Proof. intros Hc. simpl. rewrite Hc. by destruct (rstrip s). Qed.

Lemma rstrip_idemp s : rstrip (rstrip s) = rstrip s.
Proof.
  induction s as [|c s IH]; [done|]. simpl.
  destruct (rstrip s) as [|c' r] eqn:Hr.
  - destruct (isspace c) eqn:Hc; [done|]. simpl. by rewrite Hc.
  - simpl in *. by rewrite IH.
Qed.

(** Trimming the left end of a string that starts with no whitespace
    changes nothing, also after its right end was trimmed. *)
Lemma lstrip_rstrip_lstrip s : lstrip (rstrip (lstrip s)) = rstrip (lstrip s).
Proof.
  induction s as [|c s IH]; [done|]. simpl.
  destruct (isspace c) eqn:Hc; [done|].
  rewrite rstrip_cons_nonspace by done. simpl. by rewrite Hc.
Qed.

Lemma strip_idemp s : strip (strip s) = strip s.
Proof. unfold strip. by rewrite lstrip_rstrip_lstrip, rstrip_idemp. Qed.

(** ** Export Parser, further *)

Lemma pick_trimmed row keys s : pick row keys = inr s → trimmed s.
Proof.
  induction keys as [|k keys IH]; simpl.
  - by intros [= <-].
  - destruct (row !! k) as [[v|]|]; simpl; [|done|done].
    destruct (truthy (strip v)); [|done].
    intros [= <-]. apply strip_idemp.
Qed.

Lemma read_loop_spec reader ending :
  ∀ rows,
    (Forall (λ row, ∃ o, parse_row row = inr o) reader →
     read_loop reader ending rows
     = match ending with
       | None => inr (rows ++ omap emitted reader)
       | Some e => inl e
       end)
    ∧ (Exists (λ row, ∃ e, parse_row row = inl e) reader →
       read_loop reader ending rows = inl AttributeError).
Proof.
  induction reader as [|row reader IH]; intros rows.
  - split; [|by intros ?%Exists_nil].
    intros _. simpl. destruct ending; [done|]. by rewrite app_nil_r.
  - cbn [read_loop omap list_omap]. unfold emitted at 1.
    destruct (parse_row row) as [e|[r|]] eqn:Hrow.
    + split.
      * intros [[o ?] _]%Forall_cons. congruence.
      * intros _. unfold parse_row in Hrow.
        destruct (pick row title_keys) as [e1|t] eqn:H1;
          [apply pick_raises in H1 as [-> _]; congruence|].
        destruct (pick row artist_keys) as [e2|a] eqn:H2;
          [apply pick_raises in H2 as [-> _]; congruence|].
        destruct (pick row album_keys) as [e3|l] eqn:H3;
          [apply pick_raises in H3 as [-> _]; congruence|].
        by destruct (truthy t && truthy a).
    + destruct (IH (rows ++ [r])) as [IH1 IH2]. split.
      * intros [_ Hall]%Forall_cons. rewrite IH1 by done.
        destruct ending; [done|]. by rewrite <- app_assoc.
      * intros [[e ?]|Hex]%Exists_cons; [congruence|auto].
    + destruct (IH rows) as [IH1 IH2]. split.
      * intros [_ Hall]%Forall_cons. auto.
      * intros [[e ?]|Hex]%Exists_cons; [congruence|auto].
Qed.

(** Either every row parses or some row raises. *)
Lemma parse_all_or_some (reader : list (gmap string cell)) :
  Forall (λ row, ∃ o, parse_row row = inr o) reader
  ∨ Exists (λ row, ∃ e, parse_row row = inl e) reader.
Proof.
  induction reader as [|row reader [IH|IH]].
  - left. constructor.
  - destruct (parse_row row) as [e|o] eqn:Hrow.
    + right. left. eauto.
    + left. constructor; eauto.
  - right. by right.
Qed.

(** The loop raises for a row, and then [AttributeError], or passes on
    the exception that ends the reader. *)
Lemma read_loop_raises reader ending rows e :
  read_loop reader ending rows = inl e →
  (e = AttributeError ∧ Exists (λ row, ∃ e, parse_row row = inl e) reader)
  ∨ (ending = Some e ∧ Forall (λ row, ∃ o, parse_row row = inr o) reader).
Proof.
  destruct (read_loop_spec reader ending rows) as [Hall Hex].
  destruct (parse_all_or_some reader) as [Hok|Hraise].
  - rewrite (Hall Hok). destruct ending as [e'|]; [|done].
    intros [= ->]. by right.
  - rewrite (Hex Hraise). intros [= <-]. by left.
Qed.

Lemma read_loop_returns reader ending rows out :
  read_loop reader ending rows = inr out →
  ending = None ∧ Forall (λ row, ∃ o, parse_row row = inr o) reader
  ∧ out = rows ++ omap emitted reader.
Proof.
  destruct (read_loop_spec reader ending rows) as [Hall Hex].
  destruct (parse_all_or_some reader) as [Hok|Hraise].
  - rewrite (Hall Hok). destruct ending as [e'|]; [done|].
    by intros [= <-].
  - by rewrite (Hex Hraise).
Qed.

Lemma omap_length_le {A B} (g : A → option B) (xs : list A) :
  length (omap g xs) ≤ length xs.
Proof.
  induction xs as [|x xs IH]; [done|].
  cbn [omap list_omap]. destruct (g x); simpl; lia.
Qed.

(** X3.  The parser handles its input in order.  An exception that
    escapes the head of the [with] block (a failing [open]) is the
    outcome.  Otherwise the rows go through the loop one by one: when
    some row raises, the parse raises [AttributeError]; when every row
    parses, the parse ends as the reader does, with the reader's own
    exception if it has one (a [csv.Error], say), and else with the
    records of the rows that have a title and an artist, in row order
    (at most one per row).  There is no other way for it to return or to
    raise. *)
Theorem read_apple_playlist_txt_rows :
  (∀ e, read_apple_playlist_txt (inl e) = inl e)
  ∧ (∀ reader : iteration (gmap string cell),
        let parses := Forall (λ row, ∃ o, parse_row row = inr o) (yields reader) in
        let raises := Exists (λ row, ∃ e, parse_row row = inl e) (yields reader) in
        (raises → read_apple_playlist_txt (inr reader) = inl AttributeError)
        ∧ (parses →
           read_apple_playlist_txt (inr reader)
           = match ending reader with
             | None => inr (omap emitted (yields reader))
             | Some e => inl e
             end)
        ∧ (∀ rows,
              read_apple_playlist_txt (inr reader) = inr rows →
              parses ∧ ending reader = None
              ∧ rows = omap emitted (yields reader)
              ∧ length rows ≤ length (yields reader))
        ∧ (∀ e,
              read_apple_playlist_txt (inr reader) = inl e →
              (e = AttributeError ∧ raises)
              ∨ (ending reader = Some e ∧ parses))).
Proof.
  split; [done|]. intros reader parses raises.
  unfold read_apple_playlist_txt, parses, raises.
  destruct (read_loop_spec (yields reader) (ending reader) []) as [Hall Hex].
  split_and!.
  - exact Hex.
  - exact Hall.
  - intros rows [Hend [Hok ->]]%read_loop_returns.
    split_and!; try done. apply omap_length_le.
  - intros e He. by apply read_loop_raises in He.
Qed.

(** X4.  Every record the parser returns has a non-empty title and a
    non-empty artist, both free of leading and trailing whitespace (trimming
    them again changes nothing); its album is either absent or a
    non-empty trimmed string, never the empty string. *)
Theorem read_apple_playlist_txt_trimmed (input : Input)
    (rows : list SourceTrack) :
  read_apple_playlist_txt input = inr rows →
  Forall (λ r : SourceTrack,
            r.1.1 ≠ "" ∧ trimmed r.1.1 ∧ r.1.2 ≠ "" ∧ trimmed r.1.2
            ∧ match r.2 with
              | Some album => album ≠ "" ∧ trimmed album
              | None => True
              end) rows.
Proof.
  unfold read_apple_playlist_txt.
  destruct input as [e|[reader ending]]; [done|]. cbn [yields Csv.ending].
  assert (∀ acc,
            Forall (λ r : SourceTrack,
                      r.1.1 ≠ "" ∧ trimmed r.1.1 ∧ r.1.2 ≠ "" ∧ trimmed r.1.2
                      ∧ match r.2 with
                        | Some album => album ≠ "" ∧ trimmed album
                        | None => True
                        end) acc →
            read_loop reader ending acc = inr rows →
            Forall (λ r : SourceTrack,
                      r.1.1 ≠ "" ∧ trimmed r.1.1 ∧ r.1.2 ≠ "" ∧ trimmed r.1.2
                      ∧ match r.2 with
                        | Some album => album ≠ "" ∧ trimmed album
                        | None => True
                        end) rows) as Hgen.
  { induction reader as [|row reader IH]; intros acc Hacc; simpl.
    - destruct ending; [done|]. by intros [= <-].
    - destruct (parse_row row) as [e|[[[t a] l]|]] eqn:Hrow; [done| |by apply IH].
      apply IH. rewrite Forall_app. split; [done|]. constructor; [|done].
      unfold parse_row in Hrow.
      destruct (pick row title_keys) as [|t'] eqn:H1; [done|].
      destruct (pick row artist_keys) as [|a'] eqn:H2; [done|].
      destruct (pick row album_keys) as [|l'] eqn:H3; [done|].
      apply pick_trimmed in H1, H2, H3.
      destruct t' as [|c1 t'], a' as [|c2 a']; simpl in Hrow; try done.
      injection Hrow as <- <- <-. simpl. split_and!; try done.
      by destruct l'. }
  apply Hgen. constructor.
Qed.

Lemma read_apple_playlist_txt_trimmed_witness :
  read_apple_playlist_txt
    (inr (dict_reader
            (exhausted [Sample.header; [" Song A "; "Artist A"; "  "]])))
  = inr [("Song A", "Artist A", None)]
  ∧ trimmed "Song A".
Proof.
  assert (read_apple_playlist_txt
            (inr (dict_reader
                    (exhausted [Sample.header; [" Song A "; "Artist A"; "  "]])))
          = inr [("Song A", "Artist A", None)]) as Hread by (by vm_compute).
  split; [exact Hread|].
  apply read_apple_playlist_txt_trimmed in Hread.
  apply Forall_cons in Hread as [(_ & Htitle & _) _]. exact Htitle.
Defined.

(** A line with a field for every column gives a row of string cells. *)
Lemma dict_row_full header line k :
  length header ≤ length line → dict_row header line !! k ≠ Some NoneVal.
Proof.
  intros Hlen. unfold dict_row. rewrite drop_ge by lia. simpl.
  assert (∀ kvs (d : gmap string cell),
            d !! k ≠ Some NoneVal →
            foldl (λ d kv, <[kv.1 := Str kv.2]> d) d kvs !! k ≠ Some NoneVal)
    as Hfill.
  { induction kvs as [|[k' v] kvs IH]; intros d Hd; [done|].
    simpl. apply IH. destruct (decide (k' = k)) as [->|Hne].
    - by rewrite lookup_insert_eq.
    - by rewrite lookup_insert_ne. }
  apply Hfill. by rewrite lookup_empty.
Qed.

(** X5.  Only a short line makes the handling of the rows raise.  Take
    a file that opens and whose [csv.reader] yields the line [header] and
    then [lines].  When every data line is blank or has at least as many
    fields as the header, the parser ends as the reader does, whatever the
    column names and the values are: with the reader's own exception if it
    has one, with the records otherwise.  And when the parser raises an
    exception that is not the one ending the reader, some non-blank data
    line has fewer fields than the header. *)
Theorem full_lines_never_raise (header : list string)
    (lines : list (list string)) (ending : option exn) :
  let reader := dict_reader {| yields := header :: lines; ending := ending |} in
  ((∀ line, line ∈ lines → line = [] ∨ length header ≤ length line) →
   read_apple_playlist_txt (inr reader)
   = match ending with
     | None => inr (omap emitted (yields reader))
     | Some e => inl e
     end)
  ∧ (∀ e, read_apple_playlist_txt (inr reader) = inl e →
          ending ≠ Some e →
          ∃ line, line ∈ lines ∧ line ≠ [] ∧ length line < length header).
Proof.
  intros reader.
  assert ((∀ line, line ∈ lines → line = [] ∨ length header ≤ length line) →
          read_apple_playlist_txt (inr reader)
          = match ending with
            | None => inr (omap emitted (yields reader))
            | Some e => inl e
            end) as Hfull.
  { intros Hlines. unfold read_apple_playlist_txt.
    destruct (read_loop_spec (yields reader) ending []) as [Hok _].
    apply Hok. unfold reader, dict_reader. cbn [yields].
    apply Forall_fmap, Forall_forall.
    intros line [Hne Hin]%list_elem_of_filter. simpl.
    destruct (Hlines line Hin) as [?|Hlen]; [done|].
    rewrite parse_row_str_cells; [by eexists|..];
      intros k _; by apply dict_row_full. }
  split; [exact Hfull|].
  intros e Hraise Hown.
  destruct (decide (Exists (λ line, line ≠ [] ∧ length line < length header)
                      lines)) as [Hshort|Hnone].
  - apply Exists_exists in Hshort as (line & ? & ? & ?). by exists line.
  - rewrite Hfull in Hraise.
    + destruct ending as [e'|]; [|done]. congruence.
    + intros line Hin. apply not_Exists_Forall in Hnone; [|apply _].
      rewrite Forall_forall in Hnone. specialize (Hnone line Hin).
      simpl in Hnone.
      destruct line as [|v line]; [by left|right].
      destruct (decide (length header ≤ length (v :: line))); [done|].
      destruct Hnone. split; [done|lia].
Qed.

(** X6.  Priority of the candidate keys.  A lookup over the keys [keys1]
    followed by [keys2] is the lookup over [keys1] whenever that one finds
    a non-blank value or raises; the keys of [keys2] are consulted only
    when every key of [keys1] is absent or blank. *)
Theorem pick_app (row : gmap string cell) (keys1 keys2 : list string) :
  pick row (keys1 ++ keys2)
  = match pick row keys1 with
    | inl e => inl e
    | inr s => if truthy s then inr s else pick row keys2
    end.
Proof.
  induction keys1 as [|k keys1 IH]; [done|]. simpl.
  destruct (row !! k) as [[v|]|]; simpl; [|done|done].
  destruct (truthy (strip v)) eqn:Hv; [by rewrite Hv|done].
Qed.

(** ** Match Resolver, further *)

Lemma quoted_length s : String.length (quoted s) = String.length s + 2.
Proof. unfold quoted. simpl. rewrite string_length_app. simpl. lia. Qed.

Lemma queries_lengths title artist album :
  String.length (query_album title artist album)
  = String.length title + String.length artist + String.length album + 27
  ∧ String.length (query_fields title artist)
    = String.length title + String.length artist + 18
  ∧ String.length (query_text title artist)
    = String.length title + String.length artist + 1.
Proof.
  unfold query_album, query_fields, query_text.
  rewrite !string_length_app, !quoted_length. simpl. lia.
Qed.

(** X7.  The rungs of a ladder are pairwise different strings (they
    differ in length), so the resolver never sends the same query twice
    for a record; and when the title is not empty, no rung is the empty
    query. *)
Theorem ladder_queries_distinct (sp : Spotify) (title artist : string)
    (album : option string) :
  NoDup (queries title artist album)
  ∧ NoDup (searches (best_spotify_match sp title artist album).1)
  ∧ (title ≠ "" → Forall (λ q, q ≠ "") (queries title artist album)).
Proof.
  assert (NoDup (queries title artist album)) as Hnodup.
  { assert (∀ s1 s2 : string, String.length s1 ≠ String.length s2 → s1 ≠ s2)
      as Hlen by congruence.
    unfold queries. destruct album as [[|c a]|]; cbn [truthy app].
    all: try destruct (queries_lengths title artist (String c a))
           as (Hl1 & Hl2 & Hl3).
    all: try destruct (queries_lengths title artist "") as (Hl1 & Hl2 & Hl3).
    all: repeat (apply NoDup_cons; split;
                 [rewrite ?not_elem_of_cons; split_and?;
                  try apply not_elem_of_nil; apply Hlen;
                  rewrite ?Hl1, ?Hl2, ?Hl3; lia|]).
    all: apply NoDup_nil_2. }
  split_and!.
  - exact Hnodup.
  - unfold best_spotify_match.
    destruct (search_loop_run sp (queries title artist album))
      as [(k & q & item & items & Hk & _ & _ & ->)|[_ ->]]; simpl.
    + rewrite searches_app, searches_empty_rounds. simpl.
      rewrite <- (take_S_r _ _ _ Hk).
      eapply sublist_NoDup; [exact Hnodup|apply sublist_take].
    + by rewrite searches_empty_rounds.
  - intros Htitle. unfold queries, query_album, query_fields, query_text.
    destruct title as [|c t]; [done|].
    destruct album as [[|c' a]|]; by repeat constructor.
Qed.

(** X8.  The album only adds a first attempt.  An absent or empty album
    gives the same run as no album.  With an album whose rung comes back
    empty, the run is that search and a sleep, followed by the run without
    album.  So a record that is matched without its album is matched with
    it too. *)
Theorem album_only_adds (sp : Spotify) (title artist : string)
    (album : option string) :
  let with_album := best_spotify_match sp title artist album in
  let without := best_spotify_match sp title artist None in
  (truthy_opt album = false → with_album = without)
  ∧ (∀ a,
        album = Some a → truthy a = true →
        items_of (search sp (query_album title artist a) "track" 5) = [] →
        with_album
        = (Search (query_album title artist a) "track" 5 :: Sleep :: without.1,
           without.2))
  ∧ (∀ id, without.2 = Ret (Some id) → ∃ id', with_album.2 = Ret (Some id')).
Proof.
  intros with_album without. unfold with_album, without, best_spotify_match.
  assert (∀ a, album = Some a → truthy a = true →
            queries title artist album
            = query_album title artist a :: queries title artist None) as Hqs.
  { intros a -> Ha. unfold queries. by rewrite Ha. }
  assert (truthy_opt album = false →
          queries title artist album = queries title artist None) as Hnone.
  { unfold queries. by destruct album as [[|c a]|]. }
  split_and!.
  - intros Halbum. by rewrite Hnone.
  - intros a Ha Htruthy Hempty.
    by rewrite (Hqs a Ha Htruthy), search_loop_cons, Hempty.
  - intros id Hid. destruct (truthy_opt album) eqn:Halbum.
    + destruct album as [a|]; [|done]. rewrite (Hqs a eq_refl Halbum).
      rewrite search_loop_cons.
      destruct (items_of (search sp (query_album title artist a) "track" 5));
        simpl; eauto.
    + rewrite Hnone by done. eauto.
Qed.

(** ** Batching, further *)

(** The start indices of the batches, read by position. *)
Lemma range_from_nth (n L j : nat) :
  0 < n →
  range_from L 0 L n !! j = if decide (j * n < L) then Some (j * n) else None.
Proof.
  intros Hn. case_decide as Hj.
  - assert (j < length (range_from L 0 L n)) as Hlt.
    { rewrite (range_from_length n Hn) by lia. rewrite Nat.sub_0_r.
      apply Nat.div_le_lower_bound; lia. }
    destruct (lookup_lt_is_Some_2 _ _ Hlt) as [v Hv]. rewrite Hv.
    destruct (range_from_lookup n Hn _ _ _ _ _ Hv) as [-> _]. done.
  - destruct (range_from L 0 L n !! j) as [v|] eqn:Hv; [|done].
    destruct (range_from_lookup n Hn _ _ _ _ _ Hv) as [-> ?]. lia.
Qed.

(** The [j]-th batch is the slice [xs[j*n : j*n+n]], for as long as it
    starts inside the list. *)
Lemma chunked_nth {A} (xs : list A) (n : nat) :
  0 < n →
  ∃ chunks,
    chunked xs n = inr chunks
    ∧ ∀ j, chunks !! j
           = if decide (j * n < length xs)
             then Some (take n (drop (j * n) xs)) else None.
Proof.
  intros Hn. eexists. split; [by apply chunked_inr|].
  intros j. rewrite list_lookup_fmap, range_from_nth by done.
  case_decide; [|done]. simpl. unfold slice. do 2 f_equal. lia.
Qed.

(** No batch is empty and none exceeds the size. *)
Lemma chunked_bounds {A} (xs : list A) (n : nat) chunks :
  0 < n → chunked xs n = inr chunks → Forall (λ c, 1 ≤ length c ≤ n) chunks.
Proof.
  intros Hn Hchunks.
  destruct (chunked_nth xs n Hn) as (chunks' & Hchunks' & Hnth).
  assert (chunks' = chunks) as -> by congruence.
  apply Forall_lookup. intros j c Hc. rewrite Hnth in Hc.
  case_decide; [|done]. injection Hc as <-.
  rewrite length_take, length_drop. lia.
Qed.

(** X9.  [chunked] for any batch size and any list.  A size of 0 raises
    [ValueError], also on the empty list.  For a size [n >= 1] the batches
    concatenated give the list back, there are ceil(len/n) of them, the
    [j]-th is the slice starting at [j*n], and each holds at least one and
    at most [n] elements: no batch is empty.  A non-empty list no longer
    than [n] is a single batch. *)
Theorem chunked_any_size {A} (xs : list A) (n : nat) :
  chunked xs 0 = inl ValueError
  ∧ (0 < n →
     ∃ chunks,
       chunked xs n = inr chunks
       ∧ concat chunks = xs
       ∧ length chunks = (length xs + (n - 1)) / n
       ∧ (∀ j, chunks !! j
               = if decide (j * n < length xs)
                 then Some (take n (drop (j * n) xs)) else None)
       ∧ Forall (λ c, 1 ≤ length c ≤ n) chunks
       ∧ (xs ≠ [] → length xs ≤ n → chunks = [xs])).
Proof.
  split; [done|]. intros Hn.
  destruct (chunked_nth xs n Hn) as (chunks & Hchunks & Hnth).
  exists chunks.
  assert (concat chunks = xs) as Hconcat.
  { rewrite chunked_inr in Hchunks by done. injection Hchunks as <-.
    rewrite (slices_concat n Hn) by lia. apply drop_0. }
  assert (length chunks = (length xs + (n - 1)) / n) as Hcount.
  { rewrite chunked_inr in Hchunks by done. injection Hchunks as <-.
    rewrite length_fmap, (range_from_length n Hn) by lia.
    by rewrite Nat.sub_0_r. }
  split_and!; try done.
  - by eapply chunked_bounds.
  - intros Hne Hshort.
    assert (length chunks = 1) as Hone.
    { assert (0 < length xs) by (destruct xs; [done|simpl; lia]).
      rewrite Hcount. symmetry.
      apply (Nat.div_unique _ _ _ (length xs - 1)); lia. }
    destruct chunks as [|c [|c' chunks]]; try done.
    simpl in Hconcat. rewrite app_nil_r in Hconcat. by subst.
Qed.

(** A full batch in front of a list is the first batch of the whole. *)
Lemma chunked_full_batch {A} (c rest : list A) (n : nat) chunks :
  0 < n → length c = n →
  chunked rest n = inr chunks →
  chunked (c ++ rest) n = inr (c :: chunks).
Proof.
  intros Hn Hc Hrest.
  destruct (chunked_nth rest n Hn) as (chunks' & Hchunks' & Hnth').
  assert (chunks' = chunks) as -> by congruence.
  destruct (chunked_nth (c ++ rest) n Hn) as (whole & -> & Hnth).
  f_equal. apply list_eq. intros j. rewrite Hnth, length_app.
  destruct j as [|j]; simpl.
  - rewrite decide_True by lia. f_equal.
    rewrite drop_0, take_app_length'; done.
  - rewrite Hnth'. repeat case_decide; try lia; try done.
    do 2 f_equal. rewrite drop_app_ge by lia. f_equal. lia.
Qed.

(** X10.  Round trip.  Batches of exactly [n] elements, followed by a
    last batch of at most [n] elements when it is not empty, are what
    [chunked] gives back from their concatenation. *)
Theorem chunked_concat {A} (batches : list (list A)) (last : list A) (n : nat) :
  0 < n →
  Forall (λ c, length c = n) batches →
  length last ≤ n →
  chunked (concat batches ++ last) n
  = inr (batches ++ if decide (last = []) then [] else [last]).
Proof.
  intros Hn Hfull Hlast.
  induction Hfull as [|c batches Hc _ IH]; simpl.
  - destruct (chunked_nth last n Hn) as (chunks & -> & Hnth). f_equal.
    apply list_eq. intros j. rewrite Hnth.
    destruct last as [|x last].
    + rewrite decide_False by (simpl; lia). by rewrite decide_True.
    + rewrite (decide_False (P:=x :: last = [])) by done.
      destruct j as [|j].
      * rewrite decide_True by (simpl; lia). simpl. f_equal.
        apply take_ge. simpl in *. lia.
      * rewrite decide_False; [done|]. simpl in *. nia.
  - rewrite <- app_assoc. by apply chunked_full_batch.
Qed.

Lemma chunked_concat_witness :
  chunked (concat [[1; 2]; [3; 4]] ++ [5]) 2 = inr [[1; 2]; [3; 4]; [5]].
Proof.
  apply (chunked_concat [[1; 2]; [3; 4]] [5] 2).
  - lia.
  - by repeat constructor.
  - simpl. lia.
Defined.

(** ** Whole runs, further *)

(** The trace of a run in which [main] returned, phase by phase. *)
Lemma main_trace fuel sp env args rows :
  let user := user_id (current_user sp) in
  let find := find_playlist fuel sp (playlist_name args) user 50 0 None in
  let run := main fuel sp env args in
  run.2 = Ret tt →
  read_apple_playlist_txt (reader_rows env (infile args)) = inr rows →
  ∃ target chunks,
    find.2 = Ret target
    ∧ rows ≠ []
    ∧ chunked (matched_ids sp rows) 100 = inr chunks
    ∧ run.1
      = Print (Loaded (length rows)) :: CurrentUser :: find.1
        ++ (create_or_reuse sp user args target).1
        ++ (resolve_loop sp (length rows) rows 1 [] []).1
        ++ (PlaylistAddItems (target_id sp user args target) <$> chunks)
        ++ Print (Added (length (matched_ids sp rows)) (playlist_name args))
           :: (report_misses (missed sp rows)).1.
Proof.
  intros user find run Hret Hrows.
  destruct (main_returned fuel sp env args Hret)
    as (Hfile & Huser & Hclient & rows' & target & Hrows' & Hne & Hfind).
  assert (rows' = rows) as -> by congruence.
  destruct (main_success fuel sp env args rows target Hfile Huser Hclient Hrows Hne Hfind)
    as (chunks & Hchunks & _ & Hrun).
  exists target, chunks. split_and!; try done.
  unfold run. by rewrite Hrun.
Qed.

(** What the lookup returns is what it was given or the identifier of a
    playlist of a page it requested, with the wanted name and owner. *)
Lemma find_playlist_found fuel sp name user limit :
  ∀ offset target0 target,
    (find_playlist fuel sp name user limit offset target0).2 = Ret target →
    target = target0
    ∨ ∃ o p,
        o ∈ page_requests (find_playlist fuel sp name user limit offset target0).1
        ∧ p ∈ page_items (current_user_playlists sp limit o)
        ∧ is_target name user p
        ∧ target = Some (pl_id p).
Proof.
  induction fuel as [|fuel IH]; intros offset target0 target; [done|].
  rewrite find_playlist_step. cbv zeta.
  set (pls := current_user_playlists sp limit offset).
  assert (scan_items name user (page_items pls) target0 = target0
          ∨ ∃ p, p ∈ page_items pls ∧ is_target name user p
                 ∧ scan_items name user (page_items pls) target0
                   = Some (pl_id p)) as Hscan.
  { rewrite scan_items_first.
    destruct (filter (is_target name user) (page_items pls)) as [|p ps] eqn:Hf;
      [by left|right].
    exists p. assert (p ∈ filter (is_target name user) (page_items pls)) as Hp
      by (rewrite Hf; left).
    apply list_elem_of_filter in Hp as [? ?]. done. }
  destruct (_ || _); cbn [fst snd].
  - intros [= <-]. destruct Hscan as [->|(p & ? & ? & ->)]; [by left|right].
    exists offset, p. split_and!; try done. unfold page_requests. simpl. by left.
  - intros Hrest. apply IH in Hrest as [->|(o & p & Ho & ? & ? & ->)].
    + destruct Hscan as [->|(p & ? & ? & ->)]; [by left|right].
      exists offset, p. split_and!; try done. unfold page_requests. simpl. by left.
    + right. exists o, p. split_and!; try done.
      unfold page_requests in *. simpl. by right.
Qed.

(** X11.  Where the tracks go.  In a run in which [main] returned, every
    append call carries between 1 and 100 identifiers and all of them go to
    one playlist.  Either the run created exactly one playlist (for the
    current user, under the requested name, with the requested visibility
    and the fixed description) and fills that one; or it created none and
    fills a playlist of a page it listed, which has the requested name, is
    owned by the current user and has a non-empty identifier. *)
Theorem append_destination (fuel : nat) (sp : Spotify) (env : Env) (args : Args) :
  let run := main fuel sp env args in
  let user := user_id (current_user sp) in
  let name := playlist_name args in
  run.2 = Ret tt →
  ∃ dest,
    Forall (λ a, a.1 = dest ∧ 1 ≤ length a.2 ≤ 100) (appends run.1)
    ∧ ((creations run.1 = [name]
        ∧ UserPlaylistCreate user name (public args) description ∈ run.1
        ∧ dest = pl_id (user_playlist_create sp user name (public args) description))
       ∨ (creations run.1 = []
          ∧ ∃ offset p,
              offset ∈ page_requests run.1
              ∧ p ∈ page_items (current_user_playlists sp 50 offset)
              ∧ is_target name user p
              ∧ dest = pl_id p ∧ dest ≠ "")).
Proof.
  intros run user name Hret.
  destruct (main_returned fuel sp env args Hret)
    as (Hfile & Huser & Hclient & rows & target & Hrows & Hne & Hfind).
  destruct (main_projections fuel sp env args rows target Hfile Huser Hclient Hrows Hne Hfind)
    as (_ & Hpages & Hcreate & (chunks & Hchunks & Happends) & _).
  destruct (main_trace fuel sp env args rows Hret Hrows)
    as (target' & chunks' & Hfind' & _ & _ & Htrace).
  assert (target' = target) as -> by congruence.
  fold run user name in Hpages, Hcreate, Happends, Htrace.
  exists (target_id sp user args target). split.
  - rewrite Happends. apply Forall_fmap, Forall_forall. intros c Hc. simpl.
    split; [done|].
    apply (chunked_bounds _ 100 chunks ltac:(lia)) in Hchunks.
    rewrite Forall_forall in Hchunks. by apply Hchunks.
  - rewrite Hcreate. unfold target_id.
    destruct (truthy_opt target) eqn:Htruthy.
    + right. split; [done|].
      apply find_playlist_found in Hfind as [->|(o & p & Ho & Hp & Hw & ->)];
        [done|].
      exists o, p. rewrite Hpages. split_and!; try done.
      simpl in *. by destruct (pl_id p).
    + left. split_and!; try done.
      rewrite Htrace, create_or_reuse_run, Htruthy. cbn [fst].
      do 2 right. rewrite !elem_of_app. right. left. by left.
Qed.

Lemma append_destination_witness :
  (main 2 Scenario.sp Scenario.env Scenario.args).2 = Ret tt
  ∧ ∃ dest,
      Forall (λ a, a.1 = dest ∧ 1 ≤ length a.2 ≤ 100)
        (appends (main 2 Scenario.sp Scenario.env Scenario.args).1).
Proof.
  split; [exact scenario_returns|].
  destruct (append_destination 2 Scenario.sp Scenario.env Scenario.args
              scenario_returns) as (dest & Hdest & _).
  by exists dest.
Defined.

Lemma searches_quiet (t : list Event) :
  Forall (λ e, ∀ q ty lim, e ≠ Search q ty lim) t → searches t = [].
Proof.
  intros Hq. apply omap_quiet. eapply Forall_impl; [exact Hq|].
  intros [q ty lim| | | | | | | |] He; try done. by destruct (He q ty lim).
Qed.

Lemma searches_resolve_loop sp total rows :
  ∀ i track_ids misses,
    searches (resolve_loop sp total rows i track_ids misses).1
    = rows ≫= searched sp.
Proof.
  induction rows as [|r rows IH]; intros i track_ids misses; [done|].
  rewrite resolve_loop_cons. cbv zeta. cbn [fst].
  rewrite !searches_app, IH.
  by destruct (i mod 25 =? 0).
Qed.

(** The searches of a run are those of its resolve loop. *)
Lemma searches_main fuel sp env args rows :
  (main fuel sp env args).2 = Ret tt →
  read_apple_playlist_txt (reader_rows env (infile args)) = inr rows →
  searches (main fuel sp env args).1 = rows ≫= searched sp.
Proof.
  intros Hret Hrows.
  destruct (main_trace fuel sp env args rows Hret Hrows)
    as (target & chunks & _ & _ & _ & ->).
  destruct (find_trace_quiet fuel sp (playlist_name args)
              (user_id (current_user sp)) 50 0 None) as (_ & _ & _ & _ & Hf).
  rewrite create_or_reuse_run, report_misses_run. cbn [fst].
  change (searches (?a :: ?b :: ?t)) with (searches t).
  rewrite !searches_app, Hf, searches_resolve_loop.
  rewrite (searches_quiet (_ <$> _)), (searches_quiet (_ :: _)).
  - rewrite app_nil_r. by destruct (truthy_opt target).
  - destruct (truthy_list _); by repeat constructor.
  - apply Forall_fmap, Forall_forall. by intros c _ q ty lim.
Qed.

(** A ladder takes between one and four searches, all among its rungs. *)
Lemma searched_bounds sp r :
  1 ≤ length (searched sp r) ≤ 4
  ∧ searched sp r ⊆ queries r.1.1 r.1.2 r.2.
Proof.
  unfold searched, best_spotify_match.
  assert (Hlen := queries_length r.1.1 r.1.2 r.2).
  destruct (search_loop_run sp (queries r.1.1 r.1.2 r.2))
    as [(k & q & item & items & Hk & _ & _ & ->)|[_ ->]]; cbn [fst].
  - rewrite searches_app, searches_empty_rounds. simpl.
    rewrite <- (take_S_r _ _ _ Hk). apply lookup_lt_Some in Hk.
    rewrite length_take. split.
    + destruct (truthy_opt r.2); lia.
    + apply subseteq_take.
  - rewrite searches_empty_rounds. split; [|done].
    destruct (truthy_opt r.2); lia.
Qed.

Lemma read_loop_titles reader ending :
  ∀ acc rows,
    read_loop reader ending acc = inr rows →
    Forall (λ r : SourceTrack, r.1.1 ≠ "") acc →
    Forall (λ r : SourceTrack, r.1.1 ≠ "") rows.
Proof.
  induction reader as [|row reader IH]; intros acc rows; simpl.
  - destruct ending; [done|]. by intros [= <-].
  - destruct (parse_row row) as [e|[[[t a] l]|]] eqn:Hrow; [done| |apply IH].
    intros Hrest Hacc. apply (IH _ _ Hrest).
    rewrite Forall_app. split; [done|]. constructor; [|done].
    by apply parse_row_emitted in Hrow as (_ & _ & ? & _).
Qed.

Lemma read_titles input rows :
  read_apple_playlist_txt input = inr rows →
  Forall (λ r : SourceTrack, r.1.1 ≠ "") rows.
Proof.
  destruct input as [e|reader]; [done|]. simpl. intros Hrows.
  eapply read_loop_titles; [exact Hrows|constructor].
Qed.

Lemma search_loop_requests sp qs :
  Forall (λ e, ∀ q ty lim, e = Search q ty lim → ty = "track" ∧ lim = 5)
    (search_loop sp qs).1.
Proof.
  induction qs as [|q qs IH]; [by constructor|].
  rewrite search_loop_cons.
  destruct (items_of (search sp q "track" 5)); cbn [fst].
  - apply Forall_cons. split; [by intros ? ? ? [= _ <- <-]|].
    apply Forall_cons. split; [done|exact IH].
  - apply Forall_cons. split; [by intros ? ? ? [= _ <- <-]|constructor].
Qed.

Lemma resolve_loop_requests sp total rows :
  ∀ i track_ids misses,
    Forall (λ e, ∀ q ty lim, e = Search q ty lim → ty = "track" ∧ lim = 5)
      (resolve_loop sp total rows i track_ids misses).1.
Proof.
  induction rows as [|r rows IH]; intros i track_ids misses; [by constructor|].
  rewrite resolve_loop_cons. cbv zeta. cbn [fst].
  rewrite !Forall_app. split_and!.
  - apply search_loop_requests.
  - destruct (i mod 25 =? 0); by repeat constructor.
  - apply IH.
Qed.

(** X12.  The search budget of a run.  In a run in which [main]
    returned, the searches are those of the ladders of the parsed records,
    record after record: at least one and at most four per record, each
    for type "track" with limit 5, and none with an empty query. *)
Theorem search_budget (fuel : nat) (sp : Spotify) (env : Env) (args : Args)
    (rows : list SourceTrack) :
  let run := main fuel sp env args in
  run.2 = Ret tt →
  read_apple_playlist_txt (reader_rows env (infile args)) = inr rows →
  searches run.1 = rows ≫= searched sp
  ∧ length rows ≤ length (searches run.1) ≤ 4 * length rows
  ∧ Forall (λ q, q ≠ "") (searches run.1)
  ∧ Forall (λ e, ∀ q ty lim, e = Search q ty lim → ty = "track" ∧ lim = 5) run.1.
Proof.
  intros run Hret Hrows.
  assert (Hsearches := searches_main fuel sp env args rows Hret Hrows).
  fold run in Hsearches. rewrite Hsearches.
  assert (Forall (λ r : SourceTrack, r.1.1 ≠ "") rows) as Htitles.
  { by eapply read_titles. }
  assert (length rows ≤ length (rows ≫= searched sp) ≤ 4 * length rows)
    as Hbudget.
  { clear. induction rows as [|r rows IH]; [simpl; lia|].
    cbn [mbind list_bind]. rewrite length_app. simpl.
    destruct (searched_bounds sp r) as [? _]. lia. }
  split; [done|]. split; [exact Hbudget|]. split.
  - apply Forall_forall. intros q (r & Hq & Hr)%list_elem_of_bind.
    rewrite Forall_forall in Htitles. specialize (Htitles r Hr).
    destruct (searched_bounds sp r) as [_ Hsub]. apply Hsub in Hq.
    destruct r as [[title artist] album]. simpl in *.
    unfold queries, query_album, query_fields, query_text in Hq.
    destruct title as [|c t]; [done|].
    destruct album as [[|c' a]|]; simpl in Hq; split_mem Hq; by subst q.
  - destruct (main_trace fuel sp env args rows Hret Hrows)
      as (target & chunks & _ & _ & _ & Htrace).
    fold run in Htrace. rewrite Htrace, create_or_reuse_run, report_misses_run.
    cbn [fst]. repeat constructor; try done.
    rewrite !Forall_app. split_and!.
    + eapply Forall_impl; [apply find_playlist_events|]. by intros e [o ->].
    + destruct (truthy_opt target); by repeat constructor.
    + apply resolve_loop_requests.
    + apply Forall_fmap, Forall_forall. by intros c _ q ty lim.
    + destruct (truthy_list _); by repeat constructor.
Qed.

Lemma search_budget_witness :
  (main 2 Scenario.sp Scenario.env Scenario.args).2 = Ret tt
  ∧ length (searches (main 2 Scenario.sp Scenario.env Scenario.args).1) = 4.
Proof.
  split; [exact scenario_returns|].
  destruct (search_budget 2 Scenario.sp Scenario.env Scenario.args Scenario.rows
              scenario_returns scenario_parsed) as (Hsearches & _).
  rewrite Hsearches. by vm_compute.
Defined.

Lemma find_playlist_endless sp name user limit :
  (∀ offset,
      filter (is_target name user)
        (page_items (current_user_playlists sp limit offset)) = []
      ∧ truthy_opt (page_next (current_user_playlists sp limit offset)) = true) →
  ∀ fuel offset,
    find_playlist fuel sp name user limit offset None
    = (CurrentUserPlaylists limit <$> ((λ k, offset + k * limit) <$> seq 0 fuel),
       OutOfFuel).
Proof.
  intros Hpages. induction fuel as [|fuel IH]; intros offset; [done|].
  rewrite find_playlist_step. cbv zeta.
  destruct (Hpages offset) as [Hnone Hnext].
  rewrite scan_items_first, Hnone, Hnext. cbn [head truthy_opt negb orb].
  rewrite IH. cbn [fst snd]. by rewrite offsets_S, fmap_cons.
Qed.

(** X13.  The lookup has no bound of its own.  When every page of the
    listing announces a next page and none holds a playlist with the
    requested name owned by the current user, a run that passes the
    pre-flight checks and builds its client never gets out of the lookup: whatever the number of
    iterations allowed, it has requested that many pages, at offsets
    [0, 50, 100, ...], and is still looping.  Nothing is created, searched
    or appended. *)
Theorem endless_listing (sp : Spotify) (env : Env) (args : Args)
    (rows : list SourceTrack) :
  path_exists env (infile args) = true →
  truthy_opt (getenv env "SPOTIFY_USERNAME") = true →
  client_error env = None →
  read_apple_playlist_txt (reader_rows env (infile args)) = inr rows →
  rows ≠ [] →
  (∀ offset,
      filter (is_target (playlist_name args) (user_id (current_user sp)))
        (page_items (current_user_playlists sp 50 offset)) = []
      ∧ truthy_opt (page_next (current_user_playlists sp 50 offset)) = true) →
  ∀ fuel,
    main fuel sp env args
    = (Print (Loaded (length rows)) :: CurrentUser
         :: (CurrentUserPlaylists 50 <$> ((λ k, k * 50) <$> seq 0 fuel)),
       OutOfFuel).
Proof.
  intros Hfile Huser Hclient Hrows Hne Hpages fuel.
  unfold main. rewrite Hfile, Huser. cbn [negb].
  rewrite (bind_new_client env _ Hclient), Hrows.
  rewrite bind_lift_inr. destruct rows as [|r rows']; [done|].
  cbn [truthy_list negb]. rewrite bind_emit.
  rewrite (bind_value (sp_current_user sp) _ (current_user sp) eq_refl).
  rewrite (find_playlist_endless sp _ _ 50 Hpages). reflexivity.
Qed.

Lemma endless_listing_witness :
  main 3 Scenario2.sp_endless Scenario.env Scenario.args
  = ([Print (Loaded 2); CurrentUser; CurrentUserPlaylists 50 0;
      CurrentUserPlaylists 50 50; CurrentUserPlaylists 50 100],
     OutOfFuel).
Proof.
  apply (endless_listing Scenario2.sp_endless Scenario.env Scenario.args
           Scenario.rows).
  - reflexivity.
  - reflexivity.
  - reflexivity.
  - exact scenario_parsed.
  - discriminate.
  - intros offset. split; by vm_compute.
Defined.

Lemma search_loop_ext sp1 sp2 qs :
  (∀ q, search sp1 q "track" 5 = search sp2 q "track" 5) →
  search_loop sp1 qs = search_loop sp2 qs.
Proof.
  intros Hsame. induction qs as [|q qs IH]; [done|].
  by rewrite !search_loop_cons, Hsame, IH.
Qed.

Lemma classification_ext sp1 sp2 rows :
  (∀ q, search sp1 q "track" 5 = search sp2 q "track" 5) →
  matched_ids sp1 rows = matched_ids sp2 rows
  ∧ missed sp1 rows = missed sp2 rows
  ∧ rows ≫= searched sp1 = rows ≫= searched sp2.
Proof.
  intros Hsame.
  assert (∀ r, resolve sp1 r = resolve sp2 r) as Hresolve.
  { intros r. unfold resolve.
    assert (H1 := search_loop_value sp1 (queries r.1.1 r.1.2 r.2)).
    assert (H2 := search_loop_value sp2 (queries r.1.1 r.1.2 r.2)).
    rewrite (search_loop_ext sp1 sp2) in H1 by done. congruence. }
  assert (∀ r, searched sp1 r = searched sp2 r) as Hsearched.
  { intros r. unfold searched, best_spotify_match.
    by rewrite (search_loop_ext sp1 sp2). }
  unfold matched_ids, missed, is_matched. split_and!.
  - induction rows as [|r rows IH]; [done|].
    cbn [omap list_omap]. by rewrite IH, Hresolve.
  - induction rows as [|r rows IH]; [done|].
    by rewrite !filter_cons, IH, Hresolve.
  - induction rows as [|r rows IH]; [done|].
    cbn [mbind list_bind]. by rewrite IH, Hsearched.
Qed.

(** X14.  What is searched, appended and reported depends on the parsed
    records and on the answers to the searches only.  Two runs on the same
    input against services that answer the searches alike, each run with
    its own playlists, its own lookup and its own destination, send the
    same searches, append the same identifiers in the same order and write
    the same report.  In particular a second run, which finds the playlist
    the first one created, appends the same identifiers again. *)
Theorem same_searches_same_tracks (fuel1 fuel2 : nat) (sp1 sp2 : Spotify)
    (env : Env) (args : Args) :
  let run1 := main fuel1 sp1 env args in
  let run2 := main fuel2 sp2 env args in
  (∀ q, search sp1 q "track" 5 = search sp2 q "track" 5) →
  run1.2 = Ret tt → run2.2 = Ret tt →
  searches run1.1 = searches run2.1
  ∧ concat (snd <$> appends run1.1) = concat (snd <$> appends run2.1)
  ∧ writes run1.1 = writes run2.1.
Proof.
  intros run1 run2 Hsame Hret1 Hret2.
  destruct (main_returned fuel1 sp1 env args Hret1)
    as (_ & _ & _ & rows & _ & Hrows & _).
  destruct (classification_ext sp1 sp2 rows Hsame) as (Hids & Hmisses & Hqs).
  destruct (main_completed fuel1 sp1 env args rows Hret1 Hrows)
    as (t1 & c1 & p1 & _ & Hc1 & Ha1 & Hw1 & _).
  destruct (main_completed fuel2 sp2 env args rows Hret2 Hrows)
    as (t2 & c2 & p2 & _ & Hc2 & Ha2 & Hw2 & _).
  fold run1 in Ha1, Hw1. fold run2 in Ha2, Hw2.
  split_and!.
  - unfold run1, run2. by rewrite !(searches_main _ _ _ _ rows).
  - rewrite Ha1, Ha2, <- !list_fmap_compose, !list_fmap_id. congruence.
  - rewrite Hw1, Hw2. by rewrite Hmisses.
Qed.

Lemma same_searches_same_tracks_witness :
  creations (main 2 Scenario.sp Scenario.env Scenario.args).1 = []
  ∧ creations (main 1 Scenario2.sp_fresh Scenario.env Scenario.args).1 = ["X"]
  ∧ concat (snd <$> appends (main 2 Scenario.sp Scenario.env Scenario.args).1)
    = concat (snd <$> appends
                (main 1 Scenario2.sp_fresh Scenario.env Scenario.args).1).
Proof.
  split; [by vm_compute|]. split; [by vm_compute|].
  apply (same_searches_same_tracks 2 1 Scenario.sp Scenario2.sp_fresh
           Scenario.env Scenario.args).
  - reflexivity.
  - exact scenario_returns.
  - by vm_compute.
Defined.

(** A short line stops the run before it does anything. *)
Example short_line_run :
  main 2 Scenario.sp Scenario2.env_short Scenario.args
  = ([], Raised AttributeError).
Proof. by vm_compute. Qed.

Example directory_run :
  main 2 Scenario.sp Scenario2.env_directory Scenario.args
  = ([], Raised OSError).
Proof. by vm_compute. Qed.

Example long_field_run :
  main 2 Scenario.sp Scenario2.env_long_field Scenario.args
  = ([], Raised CsvError).
Proof. by vm_compute. Qed.

Example no_credentials_run :
  main 2 Scenario.sp Scenario2.env_no_credentials Scenario.args
  = ([], Raised SpotifyOauthError).
Proof. by vm_compute. Qed.



Lemma printed_app t1 t2 : printed (t1 ++ t2) = printed t1 ++ printed t2.
Proof. apply omap_app. Qed.

Lemma printed_search_loop sp qs : printed (search_loop sp qs).1 = [].
Proof.
  induction qs as [|q qs IH]; [done|]. rewrite search_loop_cons.
  by destruct (items_of (search sp q "track" 5)).
Qed.

(** The progress lines of the resolve loop: one for every index that is
    a multiple of 25. *)
Lemma printed_resolve_loop sp total rows :
  ∀ i track_ids misses,
    printed (resolve_loop sp total rows i track_ids misses).1
    = (λ j, Matched j total)
        <$> filter (λ j, j mod 25 = 0) (seq i (length rows)).
Proof.
  induction rows as [|r rows IH]; intros i track_ids misses; [done|].
  rewrite resolve_loop_cons. cbv zeta. cbn [fst].
  rewrite !printed_app, IH. unfold best_spotify_match.
  rewrite printed_search_loop. cbn [length seq app].
  rewrite filter_cons.
  destruct (Nat.eqb_spec (i mod 25) 0) as [Hi|Hi].
  - by rewrite decide_True.
  - by rewrite decide_False.
Qed.

Lemma succ_div_25 n :
  S n / 25 = if decide (S n mod 25 = 0) then S (n / 25) else n / 25.
Proof.
  assert (Hdiv := Nat.div_mod_eq (S n) 25).
  assert (Hmod := Nat.mod_upper_bound (S n) 25 ltac:(lia)).
  assert (Hdiv' := Nat.div_mod_eq n 25).
  assert (Hmod' := Nat.mod_upper_bound n 25 ltac:(lia)).
  revert Hdiv Hmod Hdiv' Hmod'.
  generalize (S n / 25) (S n mod 25) (n / 25) (n mod 25).
  intros a r b r' Hdiv Hmod Hdiv' Hmod'. case_decide; lia.
Qed.

(** The multiples of 25 among [1..n]. *)
Lemma multiples_of_25 n :
  filter (λ j, j mod 25 = 0) (seq 1 n) = (λ k, 25 * k) <$> seq 1 (n / 25).
Proof.
  induction n as [|n IH]; [done|].
  rewrite seq_S, filter_app, IH, filter_cons, filter_nil.
  change (1 + n) with (S n). rewrite succ_div_25.
  case_decide as Hz; [|by rewrite app_nil_r].
  rewrite seq_S, fmap_app. f_equal. cbn [fmap list_fmap]. f_equal.
  assert (Hdiv := Nat.div_mod_eq (S n) 25). rewrite Hz, succ_div_25 in Hdiv.
  rewrite decide_True in Hdiv by done.
  revert Hdiv. generalize (n / 25). intros b Hb. lia.
Qed.

(** X15.  What a run prints.  In a run in which [main] returned,
    standard output holds, in this order: the number of records loaded;
    one line saying that the playlist was created or that an existing one
    is used; the progress lines "Matched i/n" for i = 25, 50, ... up to n
    (none for fewer than 25 records); the number of tracks added; and, when
    records stayed unmatched, their number.  Nothing goes to standard
    error. *)
Theorem printed_lines (fuel : nat) (sp : Spotify) (env : Env) (args : Args)
    (rows : list SourceTrack) :
  let run := main fuel sp env args in
  let n := length rows in
  run.2 = Ret tt →
  read_apple_playlist_txt (reader_rows env (infile args)) = inr rows →
  (∃ first,
      (first = CreatedPlaylist (playlist_name args)
       ∨ first = AddingToExisting (playlist_name args))
      ∧ printed run.1
        = Loaded n :: first
          :: ((λ k, Matched (25 * k) n) <$> seq 1 (n / 25))
          ++ Added (length (matched_ids sp rows)) (playlist_name args)
          :: (if decide (missed sp rows = []) then []
              else [CouldNotMatch (length (missed sp rows))]))
  ∧ Forall (λ e, ∀ m, e ≠ PrintErr m) run.1.
Proof.
  intros run n Hret Hrows.
  destruct (main_trace fuel sp env args rows Hret Hrows)
    as (target & chunks & _ & _ & _ & Htrace).
  fold run in Htrace. rewrite Htrace.
  destruct (find_trace_quiet fuel sp (playlist_name args)
              (user_id (current_user sp)) 50 0 None) as (_ & _ & _ & Hf & _).
  destruct (add_trace_appends
              (target_id sp (user_id (current_user sp)) args target) chunks)
    as (_ & _ & _ & _ & Ha).
  rewrite create_or_reuse_run, report_misses_run. cbn [fst]. split.
  - exists (if truthy_opt target
            then AddingToExisting (playlist_name args)
            else CreatedPlaylist (playlist_name args)).
    split; [destruct (truthy_opt target); auto|].
    change (printed (Print ?m :: CurrentUser :: ?t)) with (m :: printed t).
    rewrite !printed_app, Hf, Ha, printed_resolve_loop, multiples_of_25.
    rewrite <- list_fmap_compose. fold n.
    destruct (truthy_opt target), (missed sp rows); reflexivity.
  - repeat constructor; try done. rewrite !Forall_app. split_and!.
    + eapply Forall_impl; [apply find_playlist_events|]. by intros e [o ->].
    + destruct (truthy_opt target); by repeat constructor.
    + eapply Forall_impl; [apply resolve_loop_events|].
      intros e He m'. by destruct e.
    + apply Forall_fmap, Forall_forall. by intros c _ m.
    + destruct (truthy_list _); by repeat constructor.
Qed.

Lemma printed_lines_witness :
  (main 2 Scenario.sp Scenario.env Scenario.args).2 = Ret tt
  ∧ ∃ first,
      printed (main 2 Scenario.sp Scenario.env Scenario.args).1
      = [Loaded 2; first; Added 1 "X"; CouldNotMatch 1].
Proof.
  split; [exact scenario_returns|].
  destruct (printed_lines 2 Scenario.sp Scenario.env Scenario.args Scenario.rows
              scenario_returns scenario_parsed) as ((first & _ & Hprinted) & _).
  exists first. rewrite Hprinted. by vm_compute.
Defined.

Lemma remote_listing limit (t : list Event) :
  Forall (λ e, ∃ o, e = CurrentUserPlaylists limit o) t →
  filter (λ e, is_remote e = true) t
  = CurrentUserPlaylists limit <$> page_requests t.
Proof.
  induction 1 as [|e t [o ->] _ IH]; [done|].
  rewrite filter_cons, decide_True by done.
  unfold page_requests in *. cbn [omap list_omap]. by rewrite fmap_cons, IH.
Qed.

Lemma remote_resolving (t : list Event) :
  Forall (λ e, resolve_event e = true) t →
  Forall (λ e, ∀ q ty lim, e = Search q ty lim → ty = "track" ∧ lim = 5) t →
  filter (λ e, is_remote e = true) t = (λ q, Search q "track" 5) <$> searches t.
Proof.
  induction 1 as [|e t He _ IH]; [done|].
  intros [Hshape Hrest]%Forall_cons. specialize (IH Hrest).
  rewrite filter_cons. unfold searches in *.
  destruct e as [q ty lim| | | | | |m| |]; try done.
  destruct (Hshape q ty lim eq_refl) as [-> ->].
  rewrite decide_True by done. cbn [omap list_omap].
  by rewrite fmap_cons, IH.
Qed.

(** X17.  The remote calls of a run, in order.  In a run in which [main]
    returned, the calls sent to the service are: the identity request;
    then the listing requests, page after page with page size 50; then the
    creation of the playlist, if the run creates one; then all the
    searches; then all the appends.  No call of one kind comes between the
    calls of another: the destination is settled before the first search,
    and nothing is appended before the last search. *)
Theorem remote_calls (fuel : nat) (sp : Spotify) (env : Env) (args : Args)
    (rows : list SourceTrack) :
  let run := main fuel sp env args in
  let user := user_id (current_user sp) in
  run.2 = Ret tt →
  read_apple_playlist_txt (reader_rows env (infile args)) = inr rows →
  filter (λ e, is_remote e = true) run.1
  = CurrentUser
    :: (CurrentUserPlaylists 50 <$> page_requests run.1)
    ++ ((λ name, UserPlaylistCreate user name (public args) description)
          <$> creations run.1)
    ++ ((λ q, Search q "track" 5) <$> searches run.1)
    ++ ((λ a, PlaylistAddItems a.1 a.2) <$> appends run.1).
Proof.
  intros run user Hret Hrows.
  destruct (main_returned fuel sp env args Hret)
    as (Hfile & Huser & Hclient & rows' & target & Hrows' & Hne & Hfind).
  assert (rows' = rows) as -> by congruence.
  destruct (main_projections fuel sp env args rows target Hfile Huser Hclient Hrows Hne Hfind)
    as (_ & Hpages & Hcreate & (chunks & Hchunks & Happends) & _).
  assert (Hsearches := searches_main fuel sp env args rows Hret Hrows).
  destruct (main_trace fuel sp env args rows Hret Hrows)
    as (target' & chunks' & Hfind' & _ & Hchunks' & Htrace).
  assert (target' = target) as -> by congruence.
  assert (chunks' = chunks) as -> by congruence.
  fold run user in Hpages, Hcreate, Happends, Hsearches, Htrace.
  rewrite Hpages, Hcreate, Happends, Hsearches.
  rewrite <- (searches_resolve_loop sp (length rows) rows 1 [] []).
  rewrite Htrace, create_or_reuse_run, report_misses_run. cbn [fst].
  rewrite filter_cons, decide_False by done.
  rewrite filter_cons, decide_True by done.
  rewrite !filter_app. f_equal.
  rewrite (remote_listing 50) by apply find_playlist_events.
  rewrite (remote_resolving (resolve_loop sp (length rows) rows 1 [] []).1)
    by (apply resolve_loop_events || apply resolve_loop_requests).
  do 1 f_equal. fold user. f_equal; [by destruct (truthy_opt target)|].
  f_equal. rewrite <- list_fmap_compose.
  rewrite filter_cons, decide_False by done.
  assert (filter (λ e, is_remote e = true)
            (if truthy_list (missed sp rows)
             then [Print (CouldNotMatch (length (missed sp rows)));
                   WriteFile report_path (report_content (missed sp rows))]
             else []) = []) as -> by (by destruct (truthy_list _)).
  rewrite app_nil_r. clear.
  induction chunks as [|c chunks IH]; [done|].
  rewrite !fmap_cons, filter_cons, decide_True by done. by rewrite IH.
Qed.

Lemma remote_calls_witness :
  (main 2 Scenario.sp Scenario.env Scenario.args).2 = Ret tt
  ∧ filter (λ e, is_remote e = true)
      (main 2 Scenario.sp Scenario.env Scenario.args).1
    = [CurrentUser; CurrentUserPlaylists 50 0; CurrentUserPlaylists 50 50;
       Search (query_album "Song A" "Artist A" "Album A") "track" 5;
       Search (query_fields "Song B" "Artist B") "track" 5;
       Search "Song B Artist B" "track" 5;
       Search "Song B" "track" 5;
       PlaylistAddItems "pl-x" ["id-a"]].
Proof.
  split; [exact scenario_returns|].
  rewrite (remote_calls 2 Scenario.sp Scenario.env Scenario.args Scenario.rows
             scenario_returns scenario_parsed).
  by vm_compute.
Defined.
